(** * bitset: a resizable bit vector packed eight bits per byte

    Shallow embedding of [src/bitset.c], [src/bitset.h] and [src/internal.c],
    and the properties of its operations.

    Conventions of the embedding.
    - [size_t] is 64 bits wide (LP64); its arithmetic is written out with
      [wrap_size].  [int] and [unsigned int] are 32 bits wide and both are
      kept in their unsigned representation ([wrap_int]); the bit operations
      of the source ([~], [<<], [&], [|], [^]) agree on the two
      representations, and every right shift in the source acts on an
      unsigned or a non-negative operand.  A left shift by a count below
      32 keeps the low 32 bits of the mathematical shift, which is what
      compilers produce for [~0 << k].  A shift by 32 or more is undefined
      in C and processors disagree on it; the two shifts whose count can
      reach 32, [<< (end - begin)] and [<< begin] in [bitset_rclear], go
      through [c_shl_checked], which has no result there.
    - A buffer is a [list Z] of bytes and a pointer into it is the offset of
      the byte it designates.  Every access through a pointer is checked: an
      access outside the buffer has no defined behaviour in C and is the
      result [None] here.  [NULL] is the absent buffer.
    - The allocator is an oracle: each call is refused or granted, and a
      granted block has the requested length.
    - The bitset's buffer and the external sequence handed to
      [bitset_write] / [bitset_read] are distinct objects. *)

From Stdlib Require Import ZArith List Lia Bool Btauto.
From coqutil Require Import Z.bitblast.
Import ListNotations.
Local Open Scope Z_scope.

(** ** Machine integers *)

Definition wrap_size (z : Z) : Z := z mod 2 ^ 64.
Definition wrap_int (z : Z) : Z := z mod 2 ^ 32.
Definition wrap_uchar (z : Z) : Z := z mod 2 ^ 8.

(** [~x], [x << n], [x >> n] and unary minus at type [int] / [unsigned int]. *)
Definition c_not (x : Z) : Z := wrap_int (Z.lnot x).
Definition c_shl (x n : Z) : Z := wrap_int (Z.shiftl x n).
Definition c_shr (x n : Z) : Z := Z.shiftr x n.
Definition c_neg (x : Z) : Z := wrap_int (- x).

(** [!!x] *)
Definition c_bool (x : Z) : Z := if x =? 0 then 0 else 1.

(** [x << n] where the count is not known to be below the width of [int]:
    no result for a count of 32 or more. *)
Definition c_shl_checked (x n : Z) : option Z :=
  if (0 <=? n) && (n <? 32) then Some (c_shl x n) else None.

(** ** Checked memory *)

Definition bind {A B : Type} (m : option A) (k : A -> option B) : option B :=
  match m with
  | Some a => k a
  | None => None
  end.

Notation "x <- m ;; k" := (bind m (fun x => k))
  (at level 61, m at next level, right associativity).

Fixpoint set_nth (n : nat) (v : Z) (l : list Z) : list Z :=
  match l, n with
  | [], _ => []
  | _ :: t, O => v :: t
  | x :: t, S k => x :: set_nth k v t
  end.

Definition in_block (m : list Z) (p : Z) : bool :=
  (0 <=? p) && (p <? Z.of_nat (length m)).

(** [*p] as an rvalue. *)
Definition load (m : list Z) (p : Z) : option Z :=
  if in_block m p then Some (nth (Z.to_nat p) m 0) else None.

(** [*p = v] where [*p] is an [unsigned char]. *)
Definition store (m : list Z) (p v : Z) : option (list Z) :=
  if in_block m p then Some (set_nth (Z.to_nat p) (wrap_uchar v) m) else None.

(** [memset(p, c, n)] *)
Fixpoint memset_from (m : list Z) (p c : Z) (n : nat) : option (list Z) :=
  match n with
  | O => Some m
  | S k => m' <- store m p c ;; memset_from m' (p + 1) c k
  end.

Definition memset (m : list Z) (p c n : Z) : option (list Z) :=
  memset_from m p c (Z.to_nat n).

(** ** The allocator

    The allocator is outside the program.  A call either fails or is granted;
    when it is granted the bytes the C library leaves indeterminate are
    whatever the environment supplies ([fill], one byte for each offset). *)

Inductive alloc_outcome : Type :=
| Refused
| Granted (fill : nat -> Z).

(** The block of [n] bytes that keeps the bytes of [old] it has room for and
    takes the others from [fill]. *)
Definition fresh_block (old : list Z) (n : Z) (fill : nat -> Z) : list Z :=
  map (fun k => nth k old (wrap_uchar (fill k))) (seq 0 (Z.to_nat n)).

(** [malloc(n)] *)
Definition c_malloc (n : Z) (o : alloc_outcome) : option (list Z) :=
  match o with
  | Refused => None
  | Granted fill => Some (fresh_block [] n fill)
  end.

(** [calloc(num, size)] *)
Definition c_calloc (num sz : Z) (o : alloc_outcome) : option (list Z) :=
  match o with
  | Refused => None
  | Granted _ => Some (fresh_block [] (num * sz) (fun _ => 0))
  end.

(** [realloc(p, n)]: the bytes up to the smaller of the two sizes are kept. *)
Definition c_realloc (p : option (list Z)) (n : Z) (o : alloc_outcome)
  : option (list Z) :=
  match o with
  | Refused => None
  | Granted fill =>
      Some (fresh_block (match p with Some old => old | None => [] end) n fill)
  end.

(** ** internal.c *)

Definition bitset_internal_bytes (bits : Z) : Z :=
  wrap_size (Z.shiftr (wrap_size (bits - 1)) 3 + 1).

Definition bitset_internal_capacity (bytes : Z) : Z :=
  wrap_size (Z.shiftl bytes 3).

Definition bitset_internal_alloc (clear num sz : Z) (o : alloc_outcome)
  : option (list Z) :=
  if clear =? 0 then c_malloc (wrap_size (num * sz)) o else c_calloc num sz o.

(** ** bitset.h *)

Record bitset : Type := mk_bitset {
  data : option (list Z);
  capacity : Z;
  size : Z
}.

Definition set_data (s : bitset) (d : option (list Z)) : bitset :=
  mk_bitset d (capacity s) (size s).

Definition bitset_bytes (s : bitset) : Z := capacity s / 8.

(** ** bitset.c *)

(** [calloc(1, sizeof(struct bitset))]: every field is zero. *)
Definition bitset_new (o : alloc_outcome) : option bitset :=
  match o with
  | Refused => None
  | Granted _ => Some (mk_bitset None 0 0)
  end.

Definition bitset_malloc (num clear : Z) (o_set o_data : alloc_outcome)
  : option bitset :=
  match o_set with
  | Refused => None
  | Granted _ =>
      let bytes := bitset_internal_bytes num in
      match bitset_internal_alloc clear bytes 1 o_data with
      | None => None
      | Some d => Some (mk_bitset (Some d) (bitset_internal_capacity bytes) num)
      end
  end.

(** The offset, inside [set->data], of the byte that holds bit [index]. *)
Definition bitset_byte_at (index : Z) : Z := index / 8.

Definition bitset_rclear (s : bitset) (begin end_ : Z) : option (bitset * Z) :=
  let begin_shift := wrap_int (Z.land begin 7) in
  let end_shift := wrap_int (Z.land end_ 7) in
  let begin_ptr := bitset_byte_at begin in
  let end_ptr := bitset_byte_at end_ in
  d <- data s ;;
  d' <- (if begin_ptr =? end_ptr then
           b <- load d begin_ptr ;;
           m <- c_shl_checked (c_not 0) (wrap_size (end_ - begin)) ;;
           m <- c_shl_checked (c_not m) begin ;;
           store d begin_ptr (Z.land b (c_not m))
         else
           let first := begin_ptr + c_bool begin_shift in
           let sz := wrap_size (end_ptr - first) in
           d1 <- (if sz =? 0 then Some d else memset d first 0 sz) ;;
           d2 <- (if begin_shift =? 0 then Some d1 else
                    b <- load d1 begin_ptr ;;
                    store d1 begin_ptr
                      (Z.land b (c_not (c_shl (c_not 0) begin_shift)))) ;;
           e <- load d2 end_ptr ;;
           store d2 end_ptr (Z.land e (c_shl (c_not 0) end_shift))) ;;
  Some (set_data s (Some d'), wrap_size (end_ - begin)).

(** [intmax_t diff = set->size - size]: the [size_t] difference read as a
    signed 64-bit number. *)
Definition to_intmax (z : Z) : Z :=
  let u := wrap_size z in if u <? 2 ^ 63 then u else u - 2 ^ 64.

Definition bitset_resize (s : bitset) (sz : Z) (o : alloc_outcome)
  : bitset * Z :=
  let diff := to_intmax (size s - sz) in
  let bytes := bitset_internal_bytes sz in
  let s1 := set_data s (c_realloc (data s) bytes o) in
  match data s1 with
  | None => (s1, 0)
  | Some _ =>
      (mk_bitset (data s1) (bitset_internal_capacity bytes) sz, diff)
  end.

Definition bitset_cresize (s : bitset) (sz : Z) (o : alloc_outcome)
  : option (bitset * Z) :=
  let old_size := size s in
  let '(s1, diff) := bitset_resize s sz o in
  if old_size <? sz then
    r <- bitset_rclear s1 old_size (size s1) ;;
    Some (fst r, diff)
  else Some (s1, diff).

Definition bitset_set (s : bitset) (index state : Z) : option bitset :=
  let entry := bitset_byte_at index in
  d <- data s ;;
  e <- load d entry ;;
  d' <- store d entry
          (Z.lxor e
             (Z.land (Z.lxor (c_neg (c_bool state)) e)
                (c_shl 1 (Z.land index 7)))) ;;
  Some (set_data s (Some d')).

Definition bitset_get (s : bitset) (index : Z) : option Z :=
  d <- data s ;;
  e <- load d (bitset_byte_at index) ;;
  Some (Z.land e (c_shl 1 (Z.land index 7))).

(** The state of the copy loops: the two buffers are threaded through, the
    cursors [entry] (into the bitset) and [sp] (into the external sequence)
    and the remaining bit count [sz] are the loop variables. *)
Record cursor : Type := mk_cursor {
  c_mem : list Z;
  c_entry : Z;
  c_sp : Z;
  c_size : Z
}.

(** [for (; size >> 3; size -= 8, ++seq) { ... }] of [bitset_write].  The
    loop ends when [size >> 3] is zero; [fuel] bounds the iterations. *)
Fixpoint write_loop (fuel : nat) (shift mask : Z) (seq : list Z)
    (d : list Z) (entry sp sz : Z) : option cursor :=
  if Z.shiftr sz 3 =? 0 then Some (mk_cursor d entry sp sz) else
  match fuel with
  | O => None
  | S fuel' =>
      e <- load d entry ;;
      d <- store d entry (Z.land e (c_not mask)) ;;
      e <- load d entry ;;
      b <- load seq sp ;;
      d <- store d entry (Z.lor e (c_shl b shift)) ;;
      let entry := entry + 1 in
      d <- (if shift =? 0 then Some d else
              e <- load d entry ;;
              d <- store d entry (Z.land e mask) ;;
              e <- load d entry ;;
              b <- load seq sp ;;
              store d entry
                (Z.lor e (Z.land (c_shr b (8 - shift)) (c_not mask)))) ;;
      write_loop fuel' shift mask seq d entry (sp + 1) (wrap_size (sz - 8))
  end.

(** [if (size) { ... }] of [bitset_write]: the last, partial byte. *)
Definition write_tail (shift mask : Z) (seq : list Z) (c : cursor)
  : option (list Z) :=
  let d := c_mem c in
  let entry := c_entry c in
  let sp := c_sp c in
  let sz := c_size c in
  if sz =? 0 then Some d else
  let end_ := wrap_int (shift + sz) in
  let mask := if end_ <? 8 then c_shl (c_not (c_shl (c_not 0) sz)) shift
              else mask in
  e <- load d entry ;;
  d <- store d entry (Z.land e (c_not mask)) ;;
  e <- load d entry ;;
  b <- load seq sp ;;
  d <- store d entry (Z.lor e (Z.land (c_shl b shift) mask)) ;;
  let entry := entry + 1 in
  if 8 <? end_ then
    let mask := c_shr mask (8 - sz) in
    e <- load d entry ;;
    d <- store d entry (Z.land e mask) ;;
    e <- load d entry ;;
    b <- load seq sp ;;
    store d entry (Z.lor e (Z.land (c_shr b (8 - shift)) (c_not mask)))
  else Some d.

Definition bitset_write (s : bitset) (index : Z) (seq : list Z) (sz : Z)
  : option (bitset * Z) :=
  let tmp := sz in
  let shift := wrap_int (Z.land index 7) in
  let mask := c_shl (c_not 0) shift in
  let entry := bitset_byte_at index in
  d <- data s ;;
  c <- write_loop (Z.to_nat (Z.shiftr sz 3)) shift mask seq d entry 0 sz ;;
  d' <- write_tail shift mask seq c ;;
  Some (set_data s (Some d'), tmp).

(** The loop of [bitset_read]; here [c_mem] is the external sequence, the
    bitset's buffer [d] is only read. *)
Fixpoint read_loop (fuel : nat) (shift mask : Z) (d : list Z)
    (seq : list Z) (entry sp sz : Z) : option cursor :=
  if Z.shiftr sz 3 =? 0 then Some (mk_cursor seq entry sp sz) else
  match fuel with
  | O => None
  | S fuel' =>
      b <- load seq sp ;;
      e <- load d entry ;;
      seq <- store seq sp (Z.lor b (c_shr (Z.land e mask) shift)) ;;
      let entry := entry + 1 in
      seq <- (if shift =? 0 then Some seq else
                b <- load seq sp ;;
                e <- load d entry ;;
                store seq sp
                  (Z.lor b (c_shl (Z.land e (c_not mask)) (8 - shift)))) ;;
      read_loop fuel' shift mask d seq entry (sp + 1) (wrap_size (sz - 8))
  end.

(** [if (size) { ... }] of [bitset_read]: the last, partial byte. *)
Definition read_tail (shift mask : Z) (d : list Z) (c : cursor)
  : option (list Z) :=
  let seq := c_mem c in
  let entry := c_entry c in
  let sp := c_sp c in
  let sz := c_size c in
  if sz =? 0 then Some seq else
  let end_ := wrap_int (shift + sz) in
  let mask := if end_ <? 8 then c_shl (c_not (c_shl (c_not 0) sz)) shift
              else mask in
  b <- load seq sp ;;
  e <- load d entry ;;
  seq <- store seq sp (Z.lor b (c_shr (Z.land e mask) shift)) ;;
  let entry := entry + 1 in
  if 8 <? end_ then
    let mask := c_shr mask (8 - sz) in
    b <- load seq sp ;;
    e <- load d entry ;;
    store seq sp (Z.lor b (c_shl (Z.land e (c_not mask)) (8 - shift)))
  else Some seq.

(** The result is the external sequence after the call and the value
    returned. *)
Definition bitset_read (s : bitset) (index : Z) (seq : list Z) (sz : Z)
  : option (list Z * Z) :=
  let tmp := sz in
  let shift := wrap_int (Z.land index 7) in
  let mask := c_shl (c_not 0) shift in
  let entry := bitset_byte_at index in
  d <- data s ;;
  c <- read_loop (Z.to_nat (Z.shiftr sz 3)) shift mask d seq entry 0 sz ;;
  seq' <- read_tail shift mask d c ;;
  Some (seq', tmp).

(** ** bitset.h: the macros and inline functions over bitset.c *)

(** [#define bitset_alloc(num) bitset_malloc(num, 0)] *)
Definition bitset_alloc (num : Z) (o_set o_data : alloc_outcome)
  : option bitset :=
  bitset_malloc num 0 o_set o_data.

(** [#define bitset_calloc(num) bitset_malloc(num, 1)] *)
Definition bitset_calloc (num : Z) (o_set o_data : alloc_outcome)
  : option bitset :=
  bitset_malloc num 1 o_set o_data.

Definition bitset_nclear (s : bitset) (index sz : Z) : option (bitset * Z) :=
  bitset_rclear s index (wrap_size (index + sz)).

(** [memset(p, c, n)] through a pointer that may be [NULL]: with [n = 0]
    no byte is touched. *)
Definition memset_at (p : option (list Z)) (c n : Z)
  : option (option (list Z)) :=
  match p with
  | Some m => m' <- memset m 0 c n ;; Some (Some m')
  | None => if n =? 0 then Some None else None
  end.

(** [memset(set->data, 0, bitset_bytes(set)); return set->size;] *)
Definition bitset_clear (s : bitset) : option (bitset * Z) :=
  p <- memset_at (data s) 0 (bitset_bytes s) ;;
  Some (set_data s p, size s).

(** ** Bit-level view of a buffer *)

(** Bit [i] lives in byte [i / 8] at position [i mod 8], least significant
    bit first. *)
Definition bit_at (m : list Z) (i : Z) : bool :=
  Z.testbit (nth (Z.to_nat (i / 8)) m 0) (i mod 8).

Definition is_byte (b : Z) : Prop := 0 <= b < 256.

Definition bytes_ok (m : list Z) : Prop := Forall is_byte m.

(** A bitset whose buffer [d] is present and matches [capacity], a [size_t]. *)
Definition wf (s : bitset) (d : list Z) : Prop :=
  data s = Some d /\ bytes_ok d /\
  capacity s = 8 * Z.of_nat (length d) /\ capacity s < 2 ^ 64.

(** The bitset that owns the buffer [d] and has logical size [sz]. *)
Definition from_bytes (d : list Z) (sz : Z) : bitset :=
  mk_bitset (Some d) (8 * Z.of_nat (length d)) sz.

Definition zeros (n : nat) : list Z := repeat 0 n.

(** [ceil(count / 8)] *)
Definition ceil8 (count : Z) : Z := (count + 7) / 8.

(** The mask of the last, partial byte: [~(~0 << size) << shift] when the
    bits end inside the byte, the mask of the loop otherwise. *)
Definition tail_mask (s r : Z) : Z :=
  if wrap_int (s + r) <? 8 then c_shl (c_not (c_shl (c_not 0) r)) s
  else c_shl (c_not 0) s.

(** The mask of the branch [begin_ptr == end_ptr], as the source writes it:
    [~(~(~0 << (end - begin)) << begin)]. *)
Definition same_byte_mask (begin end_ : Z) : Z :=
  c_not (c_shl (c_not (c_shl (c_not 0) (wrap_size (end_ - begin)))) begin).

(** [~(~(~0 << n) << shift)]: the bits [shift .. shift + n - 1] are 0, the
    others 1. *)
Definition range_mask (shift n : Z) : Z :=
  c_not (c_shl (c_not (c_shl (c_not 0) n)) shift).

(** The mask as the specification writes it:
    [~((~0 << (end-begin)) << (begin mod 8))]. *)
Definition spec_same_byte_mask (begin end_ : Z) : Z :=
  c_not (c_shl (c_shl (c_not 0) (end_ - begin)) (begin mod 8)).

(** The number whose bit [i] is [f (base + i)] for [i < n], least
    significant bit first. *)
Fixpoint bits_to_Z (n : nat) (f : Z -> bool) (base : Z) : Z :=
  match n with
  | O => 0
  | S n' => Z.b2z (f base) + 2 * bits_to_Z n' f (base + 1)
  end.

(** The reference for a bit sequence packed into bytes: [n] bytes that hold
    the bits [index .. index + count - 1] of the buffer [m], the first of
    them in bit 0 of byte 0, and zeros above them. *)
Definition bits_of (m : list Z) (index count : Z) (n : nat) : list Z :=
  map (fun k =>
         bits_to_Z 8
           (fun j => (j <? count) && bit_at m (index + j))
           (8 * Z.of_nat k))
      (seq 0 n).

(** The number of bytes of the bitset's buffer; none without a buffer. *)
Definition buffer_bytes (s : bitset) : Z :=
  match data s with
  | Some d => Z.of_nat (length d)
  | None => 0
  end.

(** The bitsets that a construction or a successful resize has just
    returned.  The sizes are [size_t] values; a resize has succeeded when
    the [data] pointer it leaves is not [NULL], which is the test of
    [bitset_resize] itself. *)
Inductive just_made : bitset -> Prop :=
| made_new o s :
    bitset_new o = Some s -> just_made s
| made_malloc num clear o1 o2 s :
    0 <= num < 2 ^ 64 ->
    bitset_malloc num clear o1 o2 = Some s -> just_made s
| made_resize s0 sz o s diff :
    0 <= sz < 2 ^ 64 ->
    bitset_resize s0 sz o = (s, diff) -> data s <> None -> just_made s
| made_cresize s0 sz o s diff :
    0 <= sz < 2 ^ 64 ->
    bitset_cresize s0 sz o = Some (s, diff) -> data s <> None ->
    just_made s.

(** * Properties *)

(** ** Lists and checked memory *)

Lemma set_nth_length n v l : length (set_nth n v l) = length l.
Proof.
  revert n; induction l as [|x t IH]; intros [|n]; simpl; auto.
Qed.

Lemma nth_set_nth n v l i d :
  nth i (set_nth n v l) d =
  if Nat.eqb i n then (if Nat.ltb n (length l) then v else d) else nth i l d.
Proof.
  revert n i; induction l as [|x t IH]; intros [|n] [|i]; simpl; auto.
  destruct (Nat.eqb i n); reflexivity.
Qed.

Lemma in_block_iff m p : in_block m p = true <-> 0 <= p < Z.of_nat (length m).
Proof. unfold in_block. rewrite andb_true_iff, Z.leb_le, Z.ltb_lt. tauto. Qed.

Lemma load_in m p :
  0 <= p < Z.of_nat (length m) -> load m p = Some (nth (Z.to_nat p) m 0).
Proof.
  intros H. unfold load. apply in_block_iff in H. rewrite H. reflexivity.
Qed.

Lemma store_in m p v :
  0 <= p < Z.of_nat (length m) ->
  store m p v = Some (set_nth (Z.to_nat p) (wrap_uchar v) m).
Proof.
  intros H. unfold store. apply in_block_iff in H. rewrite H. reflexivity.
Qed.

Lemma wrap_uchar_byte v : is_byte (wrap_uchar v).
Proof. unfold is_byte, wrap_uchar. pose proof (Z.mod_pos_bound v (2 ^ 8)). lia. Qed.

Lemma wrap_uchar_id v : is_byte v -> wrap_uchar v = v.
Proof. unfold is_byte, wrap_uchar. intros H. apply Z.mod_small. lia. Qed.

Lemma bytes_ok_set_nth n v l :
  bytes_ok l -> is_byte v -> bytes_ok (set_nth n v l).
Proof.
  unfold bytes_ok. intros Hl Hv. revert n.
  induction Hl as [|x t Hx Ht IH]; intros [|n]; simpl; constructor; auto.
Qed.

Lemma bytes_ok_nth l k : bytes_ok l -> is_byte (nth k l 0).
Proof.
  unfold bytes_ok. intros H. revert k.
  induction H as [|x t Hx Ht IH]; intros [|k]; simpl; auto;
    unfold is_byte; lia.
Qed.

Lemma bytes_ok_zeros n : bytes_ok (zeros n).
Proof.
  unfold bytes_ok, zeros. apply Forall_forall. intros x Hx.
  apply repeat_spec in Hx. subst. unfold is_byte. lia.
Qed.

Lemma nth_zeros n k : nth k (zeros n) 0 = 0.
Proof.
  unfold zeros. revert k. induction n as [|n IH]; intros [|k]; simpl; auto.
Qed.

(** Two byte buffers of the same length with the same bits are equal. *)
Lemma byte_bits_inj a b :
  is_byte a -> is_byte b ->
  (forall i, 0 <= i < 8 -> Z.testbit a i = Z.testbit b i) -> a = b.
Proof.
  unfold is_byte. intros Ha Hb H. apply Z.bits_inj'. intros i Hi.
  destruct (Z.lt_ge_cases i 8) as [Hlt|Hge].
  - apply H. lia.
  - rewrite !(Z.bits_above_log2) ; auto; try lia.
    + destruct (Z.eq_dec b 0) as [->|Hn]; [simpl; lia|].
      apply Z.lt_le_trans with 8; [|lia]. apply Z.log2_lt_pow2; lia.
    + destruct (Z.eq_dec a 0) as [->|Hn]; [simpl; lia|].
      apply Z.lt_le_trans with 8; [|lia]. apply Z.log2_lt_pow2; lia.
Qed.

Lemma nth_ext_bytes (l l' : list Z) :
  length l = length l' ->
  (forall k, (k < length l)%nat -> nth k l 0 = nth k l' 0) -> l = l'.
Proof.
  intros Hlen H. apply (nth_ext l l' 0 0); auto.
Qed.

Lemma bit_at_byte m k j :
  0 <= k -> 0 <= j < 8 ->
  bit_at m (8 * k + j) = Z.testbit (nth (Z.to_nat k) m 0) j.
Proof.
  intros Hk Hj. unfold bit_at.
  replace ((8 * k + j) / 8) with k by (Z.div_mod_to_equations; lia).
  replace ((8 * k + j) mod 8) with j by (Z.div_mod_to_equations; lia).
  reflexivity.
Qed.

Lemma bits_ext (l l' : list Z) :
  length l = length l' -> bytes_ok l -> bytes_ok l' ->
  (forall i, 0 <= i -> bit_at l i = bit_at l' i) -> l = l'.
Proof.
  intros Hlen Hl Hl' H. apply nth_ext_bytes; auto. intros k Hk.
  apply byte_bits_inj; auto using bytes_ok_nth.
  intros i Hi.
  pose proof (H (8 * Z.of_nat k + i)) as E.
  rewrite !bit_at_byte, Nat2Z.id in E by lia. apply E. lia.
Qed.

(** ** Bits of the bytes the operations store *)

Ltac unfold_c :=
  unfold wrap_uchar, c_neg, c_bool, c_shl, c_shr, c_not, wrap_int in *.

Ltac split_tests :=
  repeat match goal with
         | |- context [?a <? ?b] => destruct (Z.ltb_spec a b)
         | |- context [?a <=? ?b] => destruct (Z.leb_spec a b)
         | |- context [?a =? ?b] => destruct (Z.eqb_spec a b)
         end.

Ltac same_index :=
  repeat match goal with
         | |- context [Z.testbit ?a ?i] =>
             match goal with
             | |- context [Z.testbit a ?j] =>
                 lazymatch i with j => fail | _ => idtac end;
                 replace j with i by lia
             end
         end.

(** Decides an equation between bits of bytes built with the C operators:
    every bit test is rewritten to a boolean formula over bits of the
    operands, and the comparisons of bit positions are split. *)
Ltac bits :=
  unfold_c;
  repeat (progress Z.rewrite_bitwise); split_tests; try lia;
  repeat match goal with
         | |- context [Z.testbit ?a ?i] => rewrite (Z.testbit_neg_r a i) by lia
         end;
  simpl;
  try reflexivity;
  same_index;
  repeat match goal with
         | |- context [Z.testbit ?a ?i] => destruct (Z.testbit a i)
         end;
  try reflexivity; try (exfalso; lia).

Lemma land7 x : Z.land x 7 = x mod 8.
Proof. change 7 with (Z.ones 3). rewrite Z.land_ones by lia. reflexivity. Qed.

Lemma byte_high_bits e i : is_byte e -> 8 <= i -> Z.testbit e i = false.
Proof.
  unfold is_byte. intros He Hi.
  destruct (Z.eq_dec e 0) as [->|Hn]; [apply Z.testbit_0_l|].
  apply Z.bits_above_log2; [lia|].
  apply Z.lt_le_trans with 8; [|lia]. apply Z.log2_lt_pow2; lia.
Qed.

Lemma set_byte_bits e k state i :
  0 <= k < 8 -> 0 <= i < 8 ->
  Z.testbit (wrap_uchar (Z.lxor e (Z.land (Z.lxor (c_neg (c_bool state)) e) (c_shl 1 k)))) i
  = if i =? k then negb (state =? 0) else Z.testbit e i.
Proof.
  intros Hk Hi. unfold c_bool. unfold c_shl. rewrite Z.shiftl_1_l.
  destruct (Z.eqb_spec state 0); simpl Z.opp; bits.
Qed.

Lemma write_lo_bits e b s i :
  0 <= s < 8 -> 0 <= i < 8 ->
  Z.testbit (wrap_uchar (Z.lor (wrap_uchar (Z.land e (c_not (c_shl (c_not 0) s)))) (c_shl b s))) i
  = if i <? s then Z.testbit e i else Z.testbit b (i - s).
Proof. intros. bits. Qed.

Lemma write_hi_bits e b s i :
  0 <= s < 8 -> 0 <= i < 8 ->
  Z.testbit (wrap_uchar (Z.lor (wrap_uchar (Z.land e (c_shl (c_not 0) s)))
     (Z.land (c_shr b (8 - s)) (c_not (c_shl (c_not 0) s))))) i
  = if i <? s then Z.testbit b (i + (8 - s)) else Z.testbit e i.
Proof. intros. bits. Qed.

Lemma wrap_int_small x : 0 <= x < 2 ^ 32 -> wrap_int x = x.
Proof. intros. unfold wrap_int. apply Z.mod_small. assumption. Qed.

Lemma write_tail_lo_bits e b s r i :
  0 <= s < 8 -> 0 < r < 8 -> 0 <= i < 8 ->
  Z.testbit (wrap_uchar (Z.lor (wrap_uchar (Z.land e (c_not (tail_mask s r))))
     (Z.land (c_shl b s) (tail_mask s r)))) i
  = if (s <=? i) && (i <? s + r) then Z.testbit b (i - s) else Z.testbit e i.
Proof.
  intros. unfold tail_mask.
  rewrite (wrap_int_small (s + r)) by lia.
  destruct (Z.ltb_spec (s + r) 8); bits.
Qed.

Lemma write_tail_hi_bits e b s r i :
  0 <= s < 8 -> 0 < r < 8 -> 8 < s + r -> 0 <= i < 8 ->
  Z.testbit (wrap_uchar (Z.lor (wrap_uchar (Z.land e (c_shr (c_shl (c_not 0) s) (8 - r))))
     (Z.land (c_shr b (8 - s)) (c_not (c_shr (c_shl (c_not 0) s) (8 - r)))))) i
  = if i <? s + r - 8 then Z.testbit b (i + (8 - s)) else Z.testbit e i.
Proof. intros. bits. Qed.

Lemma read_lo_bits q e s i :
  0 <= s < 8 -> 0 <= i < 8 -> is_byte e ->
  Z.testbit (wrap_uchar (Z.lor q (c_shr (Z.land e (c_shl (c_not 0) s)) s))) i
  = Z.testbit q i || ((i <? 8 - s) && Z.testbit e (i + s)).
Proof.
  intros Hs Hi He. pose proof (byte_high_bits e (i + s) He) as Hhi.
  bits; rewrite Hhi in *; try lia; try discriminate; try reflexivity.
Qed.

Lemma read_hi_bits q e s i :
  0 <= s < 8 -> 0 <= i < 8 ->
  Z.testbit (wrap_uchar (Z.lor q (c_shl (Z.land e (c_not (c_shl (c_not 0) s))) (8 - s)))) i
  = Z.testbit q i || ((8 - s <=? i) && Z.testbit e (i - (8 - s))).
Proof. intros. bits. Qed.

Lemma read_tail_lo_bits q e s r i :
  0 <= s < 8 -> 0 < r < 8 -> 0 <= i < 8 -> is_byte e ->
  Z.testbit (wrap_uchar (Z.lor q (c_shr (Z.land e (tail_mask s r)) s))) i
  = Z.testbit q i || ((i <? r) && (i <? 8 - s) && Z.testbit e (i + s)).
Proof.
  intros Hs Hr Hi He. pose proof (byte_high_bits e (i + s) He) as Hhi.
  unfold tail_mask. rewrite (wrap_int_small (s + r)) by lia.
  destruct (Z.ltb_spec (s + r) 8);
    bits; rewrite Hhi in *; try lia; try discriminate; try reflexivity.
Qed.

Lemma read_tail_hi_bits q e s r i :
  0 <= s < 8 -> 0 < r < 8 -> 8 < s + r -> 0 <= i < 8 ->
  Z.testbit (wrap_uchar (Z.lor q
     (c_shl (Z.land e (c_not (c_shr (c_shl (c_not 0) s) (8 - r)))) (8 - s)))) i
  = Z.testbit q i || ((8 - s <=? i) && (i <? r) && Z.testbit e (i - (8 - s))).
Proof. intros. bits. Qed.

Lemma clear_same_bits b s n i :
  0 <= s -> 0 <= n -> s + n < 8 -> 0 <= i < 8 ->
  Z.testbit (wrap_uchar (Z.land b
     (c_not (c_shl (c_not (c_shl (c_not 0) (wrap_size n))) s)))) i
  = if (s <=? i) && (i <? s + n) then false else Z.testbit b i.
Proof.
  intros. replace (wrap_size n) with n
    by (unfold wrap_size; rewrite Z.mod_small; lia).
  bits.
Qed.

Lemma clear_begin_bits b s i :
  0 <= s < 8 -> 0 <= i < 8 ->
  Z.testbit (wrap_uchar (Z.land b (c_not (c_shl (c_not 0) s)))) i
  = (i <? s) && Z.testbit b i.
Proof. intros. bits. Qed.

Lemma clear_end_bits e s i :
  0 <= s < 8 -> 0 <= i < 8 ->
  Z.testbit (wrap_uchar (Z.land e (c_shl (c_not 0) s))) i
  = (s <=? i) && Z.testbit e i.
Proof. intros. bits. Qed.

(** ** Stores seen through [nth] and [bit_at] *)

Lemma nth_store m p v k :
  0 <= p < Z.of_nat (length m) ->
  nth k (set_nth (Z.to_nat p) v m) 0 =
  if Z.of_nat k =? p then v else nth k m 0.
Proof.
  intros Hp. rewrite nth_set_nth.
  destruct (Z.eqb_spec (Z.of_nat k) p) as [E|E].
  - subst p. rewrite Nat2Z.id, Nat.eqb_refl.
    destruct (Nat.ltb_spec k (length m)); [reflexivity|lia].
  - destruct (Nat.eqb_spec k (Z.to_nat p)); [lia|reflexivity].
Qed.

Lemma bit_at_store m p v i :
  0 <= p < Z.of_nat (length m) -> 0 <= i ->
  bit_at (set_nth (Z.to_nat p) v m) i =
  if i / 8 =? p then Z.testbit v (i mod 8) else bit_at m i.
Proof.
  intros Hp Hi. unfold bit_at. rewrite nth_store by assumption.
  rewrite Z2Nat.id by (apply Z.div_pos; lia).
  destruct (i / 8 =? p); reflexivity.
Qed.

Lemma bit_at_outside m i :
  0 <= i -> Z.of_nat (length m) <= i / 8 -> bit_at m i = false.
Proof.
  intros Hi H. unfold bit_at. rewrite nth_overflow by lia.
  apply Z.testbit_0_l.
Qed.

Lemma memset_from_spec n : forall m p,
  0 <= p -> p + Z.of_nat n <= Z.of_nat (length m) ->
  exists m', memset_from m p 0 n = Some m' /\
    length m' = length m /\
    forall k, nth k m' 0 =
      if (p <=? Z.of_nat k) && (Z.of_nat k <? p + Z.of_nat n) then 0
      else nth k m 0.
Proof.
  induction n as [|n IH]; intros m p Hp Hn; simpl memset_from.
  - exists m. repeat split. intros k.
    destruct (Z.leb_spec p (Z.of_nat k)), (Z.ltb_spec (Z.of_nat k) (p + Z.of_nat 0));
      simpl; auto; lia.
  - rewrite store_in by lia. simpl bind.
    destruct (IH (set_nth (Z.to_nat p) (wrap_uchar 0) m) (p + 1))
      as (m' & E & L & N); [lia|rewrite set_nth_length; lia|].
    exists m'. rewrite E. rewrite set_nth_length in L. repeat split; auto.
    intros k. rewrite N, nth_store by lia. change (wrap_uchar 0) with 0.
    destruct (Z.leb_spec (p + 1) (Z.of_nat k)),
             (Z.ltb_spec (Z.of_nat k) (p + 1 + Z.of_nat n)),
             (Z.leb_spec p (Z.of_nat k)),
             (Z.ltb_spec (Z.of_nat k) (p + Z.of_nat (S n))),
             (Z.eqb_spec (Z.of_nat k) p); simpl; auto; lia.
Qed.

Lemma memset_spec m p n :
  0 <= p -> 0 <= n -> p + n <= Z.of_nat (length m) ->
  exists m', memset m p 0 n = Some m' /\
    length m' = length m /\
    forall k, nth k m' 0 =
      if (p <=? Z.of_nat k) && (Z.of_nat k <? p + n) then 0 else nth k m 0.
Proof.
  intros Hp Hn H. unfold memset.
  destruct (memset_from_spec (Z.to_nat n) m p) as (m' & E & L & N);
    [lia|lia|].
  exists m'. rewrite Z2Nat.id in N by lia. auto.
Qed.

Lemma bytes_ok_nth_intro m :
  (forall k, is_byte (nth k m 0)) -> bytes_ok m.
Proof.
  intros H. apply Forall_forall. intros x Hx.
  destruct (In_nth m x 0 Hx) as (k & _ & <-). apply H.
Qed.

(** ** Single bits: [bitset_set] and [bitset_get] *)

Lemma wf_from_bytes d sz :
  bytes_ok d -> 8 * Z.of_nat (length d) < 2 ^ 64 -> wf (from_bytes d sz) d.
Proof. intros H L. repeat split; auto. Qed.

Lemma wf_set_data s d d' :
  wf s d -> bytes_ok d' -> length d' = length d ->
  wf (set_data s (Some d')) d'.
Proof.
  intros (Hd & Hok & Hc & Hlt) Hok' L. repeat split; simpl; auto.
  rewrite L. assumption.
Qed.

Lemma byte_at_in s d index :
  wf s d -> 0 <= index < capacity s ->
  0 <= bitset_byte_at index < Z.of_nat (length d).
Proof.
  intros (_ & _ & Hc & _) H. unfold bitset_byte_at.
  Z.div_mod_to_equations. lia.
Qed.

Lemma get_spec s d index :
  wf s d -> 0 <= index < capacity s ->
  bitset_get s index = Some (if bit_at d index then 2 ^ (index mod 8) else 0).
Proof.
  intros Hwf Hi. pose proof (byte_at_in s d index Hwf Hi) as Hb.
  pose proof Hwf as (Hd & Hok & Hc & Hlt).
  unfold bitset_get. rewrite Hd. simpl bind. rewrite load_in by assumption.
  simpl bind. f_equal. unfold bit_at, bitset_byte_at in *.
  rewrite land7. unfold c_shl. rewrite Z.shiftl_1_l.
  assert (Hm : 0 <= index mod 8 < 8) by (apply Z.mod_pos_bound; lia).
  set (e := nth (Z.to_nat (index / 8)) d 0).
  set (k := index mod 8) in *.
  rewrite wrap_int_small.
  2:{ split; [apply Z.pow_nonneg; lia|].
      apply Z.pow_lt_mono_r; lia. }
  apply Z.bits_inj'. intros i Hi0.
  rewrite Z.land_spec, Z.pow2_bits_eqb by lia.
  destruct (Z.eqb_spec k i) as [<-|Hne].
  - destruct (Z.testbit e k) eqn:Ek.
    + rewrite Z.pow2_bits_true; auto; lia.
    + rewrite Z.testbit_0_l. reflexivity.
  - rewrite andb_false_r. destruct (Z.testbit e k).
    + rewrite Z.pow2_bits_false; auto.
    + rewrite Z.testbit_0_l. reflexivity.
Qed.

Lemma set_spec s d index state :
  wf s d -> 0 <= index < capacity s ->
  exists d',
    bitset_set s index state = Some (set_data s (Some d')) /\
    wf (set_data s (Some d')) d' /\
    length d' = length d /\
    (forall k, k <> Z.to_nat (index / 8) -> nth k d' 0 = nth k d 0) /\
    (forall i, 0 <= i ->
       bit_at d' i = if i =? index then negb (state =? 0) else bit_at d i).
Proof.
  intros Hwf Hi. pose proof (byte_at_in s d index Hwf Hi) as Hb.
  pose proof Hwf as (Hd & Hok & Hc & Hlt).
  unfold bitset_set. rewrite Hd. simpl bind.
  rewrite load_in by assumption. simpl bind.
  rewrite store_in by assumption. simpl bind.
  eexists. split; [reflexivity|].
  assert (Hm : 0 <= index mod 8 < 8) by (apply Z.mod_pos_bound; lia).
  unfold bitset_byte_at in *. rewrite land7.
  split; [|split; [|split]].
  - eapply wf_set_data; eauto using set_nth_length.
    apply bytes_ok_set_nth; auto using wrap_uchar_byte.
  - apply set_nth_length.
  - intros k Hk. rewrite nth_store by assumption.
    destruct (Z.eqb_spec (Z.of_nat k) (index / 8)); [lia|reflexivity].
  - intros i Hi0. rewrite bit_at_store by assumption.
    assert (Hmi : 0 <= i mod 8 < 8) by (apply Z.mod_pos_bound; lia).
    destruct (Z.eqb_spec (i / 8) (index / 8)) as [E|E].
    + rewrite set_byte_bits by assumption.
      destruct (Z.eqb_spec (i mod 8) (index mod 8)) as [E'|E'],
               (Z.eqb_spec i index) as [E''|E'']; try reflexivity.
      * exfalso. Z.div_mod_to_equations. lia.
      * subst i. contradiction.
      * unfold bit_at. rewrite E. reflexivity.
    + destruct (Z.eqb_spec i index); [subst; contradiction|reflexivity].
Qed.

(** ** Ranged clear: [bitset_rclear] *)

Lemma wrap_size_small x : 0 <= x < 2 ^ 64 -> wrap_size x = x.
Proof. intros. unfold wrap_size. apply Z.mod_small. assumption. Qed.

Lemma memset_if_spec m p n :
  0 <= p -> 0 <= n -> p + n <= Z.of_nat (length m) -> bytes_ok m ->
  exists m', (if n =? 0 then Some m else memset m p 0 n) = Some m' /\
    length m' = length m /\ bytes_ok m' /\
    forall k, nth k m' 0 =
      if (p <=? Z.of_nat k) && (Z.of_nat k <? p + n) then 0 else nth k m 0.
Proof.
  intros Hp Hn H Hok.
  destruct (memset_spec m p n Hp Hn H) as (m' & E & L & N).
  destruct (Z.eqb_spec n 0) as [->|Hne].
  - exists m. repeat split; auto. intros k.
    destruct (Z.leb_spec p (Z.of_nat k)), (Z.ltb_spec (Z.of_nat k) (p + 0));
      simpl; auto; lia.
  - exists m'. repeat split; auto.
    apply bytes_ok_nth_intro. intros k. rewrite N.
    destruct ((p <=? Z.of_nat k) && (Z.of_nat k <? p + n));
      [unfold is_byte; lia|apply bytes_ok_nth; assumption].
Qed.

Lemma c_shl_checked_ok x n :
  0 <= n < 32 -> c_shl_checked x n = Some (c_shl x n).
Proof.
  intros H. unfold c_shl_checked.
  destruct (Z.leb_spec 0 n), (Z.ltb_spec n 32); try lia. reflexivity.
Qed.

Lemma rclear_same_byte s d begin end_ :
  wf s d -> 0 <= begin <= end_ -> end_ < capacity s ->
  begin / 8 = end_ / 8 -> begin < 32 ->
  bitset_rclear s begin end_ =
  Some (set_data s (Some (set_nth (Z.to_nat (begin / 8))
          (wrap_uchar (Z.land (nth (Z.to_nat (begin / 8)) d 0)
                         (same_byte_mask begin end_))) d)),
        end_ - begin).
Proof.
  intros Hwf Hbe He Hsame H32.
  assert (Hb : 0 <= begin < capacity s) by lia.
  pose proof (byte_at_in s d begin Hwf Hb) as Hbp.
  pose proof Hwf as (Hd & Hok & Hc & Hlt).
  assert (Hn : 0 <= end_ - begin < 8) by (Z.div_mod_to_equations; lia).
  unfold bitset_rclear. rewrite Hd. cbn [bind].
  unfold bitset_byte_at in *. rewrite Hsame, Z.eqb_refl, <- Hsame.
  rewrite load_in by assumption. cbn [bind].
  rewrite (wrap_size_small (end_ - begin)) by lia.
  rewrite c_shl_checked_ok by lia. cbn [bind].
  rewrite c_shl_checked_ok by lia. cbn [bind].
  rewrite store_in by assumption. cbn [bind].
  unfold same_byte_mask. rewrite (wrap_size_small (end_ - begin)) by lia.
  reflexivity.
Qed.

Lemma rclear_spec s d begin end_ :
  wf s d -> 0 <= begin <= end_ -> end_ < capacity s ->
  begin / 8 <> end_ / 8 \/ begin < 8 ->
  exists d',
    bitset_rclear s begin end_ = Some (set_data s (Some d'), end_ - begin) /\
    wf (set_data s (Some d')) d' /\
    length d' = length d /\
    forall i, 0 <= i ->
      bit_at d' i = if (begin <=? i) && (i <? end_) then false else bit_at d i.
Proof.
  intros Hwf Hbe He Hcase.
  assert (Hb : 0 <= begin < capacity s) by lia.
  assert (He' : 0 <= end_ < capacity s) by lia.
  pose proof (byte_at_in s d begin Hwf Hb) as Hbp.
  pose proof (byte_at_in s d end_ Hwf He') as Hep.
  pose proof Hwf as (Hd & Hok & Hc & Hlt).
  unfold bitset_byte_at in *.
  destruct (Z.eq_dec (begin / 8) (end_ / 8)) as [Hsame|Hdiff].
  - (* one byte: then [begin < 8], the byte is the first one *)
    destruct Hcase as [Hcase|Hlow]; [contradiction|].
    rewrite (rclear_same_byte s d begin end_) by (auto; lia).
    eexists. split; [reflexivity|].
    split; [|split].
    + eapply wf_set_data; eauto using set_nth_length.
      apply bytes_ok_set_nth; auto using wrap_uchar_byte.
    + apply set_nth_length.
    + intros i Hi. rewrite bit_at_store by assumption.
      assert (Hb0 : begin / 8 = 0) by (Z.div_mod_to_equations; lia).
      assert (He8 : end_ < 8) by (Z.div_mod_to_equations; lia).
      rewrite Hb0. destruct (Z.eqb_spec (i / 8) 0) as [E|E].
      * assert (Hi8 : i mod 8 = i) by (Z.div_mod_to_equations; lia).
        assert (Hi7 : i < 8) by (Z.div_mod_to_equations; lia).
        rewrite Hi8. unfold same_byte_mask.
        rewrite clear_same_bits by lia.
        replace (begin + (end_ - begin)) with end_ by lia.
        fold (bit_at d i).
        unfold bit_at. rewrite E, Hi8. reflexivity.
      * assert (8 <= i) by (Z.div_mod_to_equations; lia).
        destruct (Z.leb_spec begin i), (Z.ltb_spec i end_); simpl; auto; lia.
  - (* two bytes or more *)
    clear Hcase.
    assert (Hlt8 : begin / 8 < end_ / 8) by (Z.div_mod_to_equations; lia).
    assert (Hbs : 0 <= begin mod 8 < 8) by (apply Z.mod_pos_bound; lia).
    assert (Hes : 0 <= end_ mod 8 < 8) by (apply Z.mod_pos_bound; lia).
    unfold bitset_rclear. rewrite Hd. simpl bind.
    unfold bitset_byte_at.
    destruct (Z.eqb_spec (begin / 8) (end_ / 8)) as [|_]; [contradiction|].
    rewrite !land7, !wrap_int_small by lia.
    set (first := begin / 8 + c_bool (begin mod 8)).
    assert (Hfirst : begin / 8 <= first <= end_ / 8).
    { unfold first, c_bool. destruct (begin mod 8 =? 0); lia. }
    rewrite (wrap_size_small (end_ / 8 - first)) by lia.
    destruct (memset_if_spec d first (end_ / 8 - first))
      as (d1 & E1 & L1 & Ok1 & N1); try lia; auto.
    rewrite E1. simpl bind.
    assert (exists d2,
      (if begin mod 8 =? 0 then Some d1 else
         b <- load d1 (begin / 8) ;;
         store d1 (begin / 8)
           (Z.land b (c_not (c_shl (c_not 0) (begin mod 8))))) = Some d2 /\
      length d2 = length d /\ bytes_ok d2 /\
      forall k, nth k d2 0 =
        if (begin mod 8 =? 0) || negb (Z.of_nat k =? begin / 8) then nth k d1 0
        else wrap_uchar (Z.land (nth k d1 0)
                           (c_not (c_shl (c_not 0) (begin mod 8)))))
      as (d2 & E2 & L2 & Ok2 & N2).
    { destruct (Z.eqb_spec (begin mod 8) 0) as [Hz|Hnz].
      - exists d1. repeat split; auto.
      - rewrite load_in by lia. simpl bind. rewrite store_in by lia. simpl bind.
        eexists. split; [reflexivity|]. split; [|split].
        + rewrite set_nth_length. assumption.
        + apply bytes_ok_set_nth; auto using wrap_uchar_byte.
        + intros k. rewrite nth_store by lia. simpl orb.
          destruct (Z.eqb_spec (Z.of_nat k) (begin / 8)) as [Ek|Ek];
            simpl; auto.
          rewrite <- Ek, Nat2Z.id. reflexivity. }
    rewrite E2. simpl bind.
    rewrite load_in by lia. simpl bind. rewrite store_in by lia. simpl bind.
    rewrite (wrap_size_small (end_ - begin)) by lia.
    eexists. split; [reflexivity|]. split; [|split].
    + eapply wf_set_data; eauto.
      * apply bytes_ok_set_nth; auto using wrap_uchar_byte.
      * rewrite set_nth_length. assumption.
    + rewrite set_nth_length. assumption.
    + intros i Hi.
      assert (Him : 0 <= i mod 8 < 8) by (apply Z.mod_pos_bound; lia).
      rewrite bit_at_store by lia.
      destruct (Z.eqb_spec (i / 8) (end_ / 8)) as [Ei|Ei].
      * (* the byte of [end] *)
        rewrite clear_end_bits by lia.
        rewrite N2, N1. rewrite Z2Nat.id by lia.
        destruct (Z.eqb_spec (end_ / 8) (begin / 8)) as [|_]; [lia|].
        destruct (Z.leb_spec first (end_ / 8)); [|lia].
        destruct (Z.ltb_spec (end_ / 8) (first + (end_ / 8 - first))); [lia|].
        rewrite orb_true_r. simpl andb.
        unfold bit_at. rewrite Ei.
        destruct (Z.leb_spec (end_ mod 8) (i mod 8)),
                 (Z.leb_spec begin i), (Z.ltb_spec i end_); simpl; auto;
          exfalso; Z.div_mod_to_equations; lia.
      * unfold bit_at at 1. rewrite N2, N1.
        rewrite Z2Nat.id by (Z.div_mod_to_equations; lia).
        destruct (Z.eqb_spec (i / 8) (begin / 8)) as [Eb|Eb].
        -- (* the byte of [begin] *)
           rewrite Eb.
           destruct (Z.eqb_spec (begin mod 8) 0) as [Hz|Hnz]; simpl orb; cbv iota.
           ++ assert (first = begin / 8)
                by (unfold first, c_bool; rewrite Hz; simpl; lia).
              destruct (Z.leb_spec first (begin / 8)); [|lia].
              destruct (Z.ltb_spec (begin / 8) (first + (end_ / 8 - first)));
                [|lia].
              simpl. rewrite Z.testbit_0_l.
              destruct (Z.leb_spec begin i), (Z.ltb_spec i end_); simpl; auto;
                exfalso; Z.div_mod_to_equations; lia.
           ++ assert (first = begin / 8 + 1).
              { unfold first, c_bool.
                destruct (Z.eqb_spec (begin mod 8) 0); [contradiction|lia]. }
              destruct (Z.leb_spec first (begin / 8)); [lia|].
              simpl andb. cbv iota.
              rewrite clear_begin_bits by lia.
              unfold bit_at. rewrite Eb.
              destruct (Z.ltb_spec (i mod 8) (begin mod 8)),
                       (Z.leb_spec begin i), (Z.ltb_spec i end_); simpl; auto;
                exfalso; Z.div_mod_to_equations; lia.
        -- (* any other byte *)
           rewrite orb_true_r.
           unfold bit_at.
           destruct (Z.leb_spec first (i / 8)),
                    (Z.ltb_spec (i / 8) (first + (end_ / 8 - first)));
             simpl andb; cbv iota; rewrite ?Z.testbit_0_l;
             destruct (Z.leb_spec begin i), (Z.ltb_spec i end_); simpl; auto;
             exfalso; unfold first, c_bool in *;
             destruct (Z.eqb_spec (begin mod 8) 0);
             Z.div_mod_to_equations; lia.
Qed.

(** ** Bulk write: [bitset_write] *)

Lemma load_store_same m p v :
  0 <= p < Z.of_nat (length m) ->
  load (set_nth (Z.to_nat p) v m) p = Some v.
Proof.
  intros H. rewrite load_in by (rewrite set_nth_length; assumption).
  rewrite nth_store by assumption. rewrite Z2Nat.id, Z.eqb_refl by lia.
  reflexivity.
Qed.

Lemma set_nth_twice n v v' m : set_nth n v' (set_nth n v m) = set_nth n v' m.
Proof.
  revert n; induction m as [|x t IH]; intros [|n]; simpl; auto.
  rewrite IH. reflexivity.
Qed.

Lemma store_store_same m p v v' :
  0 <= p < Z.of_nat (length m) ->
  store (set_nth (Z.to_nat p) v m) p v' =
  Some (set_nth (Z.to_nat p) (wrap_uchar v') m).
Proof.
  intros H. rewrite store_in by (rewrite set_nth_length; assumption).
  rewrite set_nth_twice. reflexivity.
Qed.

Lemma shiftr3 x : Z.shiftr x 3 = x / 8.
Proof. rewrite Z.shiftr_div_pow2 by lia. reflexivity. Qed.

(** The bit of the external sequence that [bitset_write] puts at bit [i] of
    the bitset, when the copy of the byte [b] starts at bit [pos]. *)
Section WriteLoop.

Variables (shift : Z) (seq : list Z).
Hypothesis shift_range : 0 <= shift < 8.

Let mask := c_shl (c_not 0) shift.

(** One iteration of the loop copies the eight bits of [seq[sp]] to the
    bits [8 * entry + shift ..] of the bitset and leaves the others. *)
Lemma write_loop_step fuel d entry sp sz :
  8 <= sz < 2 ^ 64 -> bytes_ok d ->
  0 <= entry -> 8 * entry + shift + 8 <= 8 * Z.of_nat (length d) ->
  0 <= sp < Z.of_nat (length seq) ->
  exists d',
    write_loop (S fuel) shift mask seq d entry sp sz =
    write_loop fuel shift mask seq d' (entry + 1) (sp + 1) (sz - 8) /\
    length d' = length d /\ bytes_ok d' /\
    forall i, 0 <= i ->
      bit_at d' i =
      if (8 * entry + shift <=? i) && (i <? 8 * entry + shift + 8)
      then Z.testbit (nth (Z.to_nat sp) seq 0) (i - (8 * entry + shift))
      else bit_at d i.
Proof.
  intros Hsz Hok He Hfit Hsp.
  assert (Hin : 0 <= entry < Z.of_nat (length d)) by lia.
  cbn [write_loop]. rewrite shiftr3.
  destruct (Z.eqb_spec (sz / 8) 0) as [Hz|_];
    [exfalso; Z.div_mod_to_equations; lia|].
  rewrite load_in by assumption. cbn [bind].
  rewrite store_in by assumption. cbn [bind].
  rewrite load_store_same by assumption. cbn [bind].
  rewrite load_in by assumption. cbn [bind].
  rewrite store_store_same by assumption. cbn [bind].
  rewrite (wrap_size_small (sz - 8)) by lia.
  set (b := nth (Z.to_nat sp) seq 0).
  set (e := nth (Z.to_nat entry) d 0).
  set (d1 := set_nth (Z.to_nat entry) _ d).
  assert (L1 : length d1 = length d) by apply set_nth_length.
  assert (Ok1 : bytes_ok d1)
    by (apply bytes_ok_set_nth; auto using wrap_uchar_byte).
  destruct (Z.eqb_spec shift 0) as [Hs0|Hs0].
  - cbn [bind]. exists d1. repeat split; auto.
    intros i Hi. unfold d1. rewrite bit_at_store by assumption.
    assert (Him : 0 <= i mod 8 < 8) by (apply Z.mod_pos_bound; lia).
    destruct (Z.eqb_spec (i / 8) entry) as [E|E].
    + fold mask. unfold mask. rewrite write_lo_bits by lia.
      destruct (Z.ltb_spec (i mod 8) shift); [lia|].
      destruct (Z.leb_spec (8 * entry + shift) i),
               (Z.ltb_spec i (8 * entry + shift + 8)); cbn [andb];
        try (exfalso; Z.div_mod_to_equations; lia).
      f_equal. Z.div_mod_to_equations. lia.
    + destruct (Z.leb_spec (8 * entry + shift) i),
               (Z.ltb_spec i (8 * entry + shift + 8)); cbn [andb]; auto;
        exfalso; Z.div_mod_to_equations; lia.
  - assert (Hin' : 0 <= entry + 1 < Z.of_nat (length d1)) by lia.
    rewrite load_in by assumption. cbn [bind].
    rewrite store_in by assumption. cbn [bind].
    rewrite load_store_same by assumption. cbn [bind].
    rewrite store_store_same by assumption. cbn [bind].
    set (e' := nth (Z.to_nat (entry + 1)) d1 0).
    set (d2 := set_nth (Z.to_nat (entry + 1)) _ d1).
    exists d2. split; [reflexivity|].
    split; [unfold d2; rewrite set_nth_length; assumption|].
    split; [apply bytes_ok_set_nth; auto using wrap_uchar_byte|].
    intros i Hi. unfold d2. rewrite bit_at_store by assumption.
    assert (Him : 0 <= i mod 8 < 8) by (apply Z.mod_pos_bound; lia).
    destruct (Z.eqb_spec (i / 8) (entry + 1)) as [E|E].
    + fold mask. unfold mask. rewrite write_hi_bits by lia.
      assert (He' : e' = nth (Z.to_nat (i / 8)) d 0).
      { unfold e', d1. rewrite nth_store by assumption.
        rewrite Z2Nat.id by lia.
        destruct (Z.eqb_spec (entry + 1) entry); [lia|]. rewrite E.
        reflexivity. }
      rewrite He'. fold (bit_at d i).
      destruct (Z.ltb_spec (i mod 8) shift),
               (Z.leb_spec (8 * entry + shift) i),
               (Z.ltb_spec i (8 * entry + shift + 8)); cbn [andb]; auto;
        try (exfalso; Z.div_mod_to_equations; lia).
      f_equal. Z.div_mod_to_equations. lia.
    + unfold d1. rewrite bit_at_store by assumption.
      destruct (Z.eqb_spec (i / 8) entry) as [E1|E1].
      * fold mask. unfold mask. rewrite write_lo_bits by lia.
        fold e. unfold e.
        replace (nth (Z.to_nat entry) d 0) with (nth (Z.to_nat (i / 8)) d 0)
          by (rewrite E1; reflexivity).
        fold (bit_at d i).
        destruct (Z.ltb_spec (i mod 8) shift),
                 (Z.leb_spec (8 * entry + shift) i),
                 (Z.ltb_spec i (8 * entry + shift + 8)); cbn [andb]; auto;
          try (exfalso; Z.div_mod_to_equations; lia).
        f_equal. Z.div_mod_to_equations. lia.
      * destruct (Z.leb_spec (8 * entry + shift) i),
                 (Z.ltb_spec i (8 * entry + shift + 8)); cbn [andb]; auto;
          exfalso; Z.div_mod_to_equations; lia.
Qed.

Lemma write_loop_exit fuel d entry sp sz :
  0 <= sz < 8 ->
  write_loop fuel shift mask seq d entry sp sz = Some (mk_cursor d entry sp sz).
Proof.
  intros H. destruct fuel; cbn [write_loop]; rewrite shiftr3;
    replace (sz / 8) with 0 by (Z.div_mod_to_equations; lia); reflexivity.
Qed.

Lemma write_loop_spec fuel : forall d entry sp sz,
  0 <= sz < 2 ^ 64 -> sz / 8 <= Z.of_nat fuel -> bytes_ok d ->
  0 <= entry -> 8 * entry + shift + sz <= 8 * Z.of_nat (length d) ->
  0 <= sp -> sp + sz / 8 <= Z.of_nat (length seq) ->
  exists d',
    write_loop fuel shift mask seq d entry sp sz =
    Some (mk_cursor d' (entry + sz / 8) (sp + sz / 8) (sz mod 8)) /\
    length d' = length d /\ bytes_ok d' /\
    forall i, 0 <= i ->
      bit_at d' i =
      if (8 * entry + shift <=? i) && (i <? 8 * entry + shift + 8 * (sz / 8))
      then bit_at seq (8 * sp + (i - (8 * entry + shift)))
      else bit_at d i.
Proof.
  induction fuel as [|fuel IH]; intros d entry sp sz Hsz Hfuel Hok He Hfit Hsp Hseq.
  - assert (Hlt : 0 <= sz < 8) by (Z.div_mod_to_equations; lia).
    rewrite write_loop_exit by assumption.
    assert (Hq : sz / 8 = 0) by (Z.div_mod_to_equations; lia).
    assert (Hr : sz mod 8 = sz) by (Z.div_mod_to_equations; lia).
    rewrite Hq, Hr, !Z.add_0_r. exists d. repeat split; auto.
    intros i Hi. split_tests; cbn [andb]; auto; lia.
  - destruct (Z.lt_ge_cases sz 8) as [Hsmall|Hbig].
    + assert (Hlt : 0 <= sz < 8) by lia.
      rewrite write_loop_exit by assumption.
      assert (Hq : sz / 8 = 0) by (Z.div_mod_to_equations; lia).
      assert (Hr : sz mod 8 = sz) by (Z.div_mod_to_equations; lia).
      rewrite Hq, Hr, !Z.add_0_r. exists d. repeat split; auto.
      intros i Hi. split_tests; cbn [andb]; auto; lia.
    + assert (Hq : sz / 8 = (sz - 8) / 8 + 1) by (Z.div_mod_to_equations; lia).
      assert (Hr : sz mod 8 = (sz - 8) mod 8) by (Z.div_mod_to_equations; lia).
      assert (Hq0 : 0 <= (sz - 8) / 8) by (Z.div_mod_to_equations; lia).
      destruct (write_loop_step fuel d entry sp sz)
        as (d1 & E1 & L1 & Ok1 & B1); try lia; auto.
      destruct (IH d1 (entry + 1) (sp + 1) (sz - 8))
        as (d2 & E2 & L2 & Ok2 & B2); try lia; auto.
      exists d2. rewrite E1, E2, Hq, Hr.
      split; [f_equal; f_equal; lia|].
      split; [lia|]. split; [assumption|].
      intros i Hi. rewrite B2, B1 by assumption.
      destruct (Z.leb_spec (8 * (entry + 1) + shift) i),
               (Z.ltb_spec i (8 * (entry + 1) + shift + 8 * ((sz - 8) / 8))),
               (Z.leb_spec (8 * entry + shift) i),
               (Z.ltb_spec i (8 * entry + shift + 8)),
               (Z.ltb_spec i (8 * entry + shift + 8 * ((sz - 8) / 8 + 1)));
        cbn [andb]; auto; try lia.
      * f_equal. lia.
      * rewrite bit_at_byte by lia. reflexivity.
Qed.

Lemma write_tail_spec d entry sp r :
  0 <= r < 8 -> bytes_ok d ->
  0 <= entry -> 8 * entry + shift + r <= 8 * Z.of_nat (length d) ->
  0 <= sp -> (0 < r -> sp < Z.of_nat (length seq)) ->
  exists d',
    write_tail shift mask seq (mk_cursor d entry sp r) = Some d' /\
    length d' = length d /\ bytes_ok d' /\
    forall i, 0 <= i ->
      bit_at d' i =
      if (8 * entry + shift <=? i) && (i <? 8 * entry + shift + r)
      then bit_at seq (8 * sp + (i - (8 * entry + shift)))
      else bit_at d i.
Proof.
  intros Hr Hok He Hfit Hsp Hseq.
  unfold write_tail. cbn [c_mem c_entry c_sp c_size].
  destruct (Z.eqb_spec r 0) as [Hr0|Hr0].
  - exists d. repeat split; auto. intros i Hi.
    destruct (Z.leb_spec (8 * entry + shift) i),
             (Z.ltb_spec i (8 * entry + shift + r)); cbn [andb]; auto; lia.
  - assert (Hin : 0 <= entry < Z.of_nat (length d)) by lia.
    assert (Hsp' : 0 <= sp < Z.of_nat (length seq)) by lia.
    fold mask. unfold mask. fold (tail_mask shift r).
    rewrite (wrap_int_small (shift + r)) by lia.
    rewrite load_in by assumption. cbn [bind].
    rewrite store_in by assumption. cbn [bind].
    rewrite load_store_same by assumption. cbn [bind].
    rewrite load_in by assumption. cbn [bind].
    rewrite store_store_same by assumption. cbn [bind].
    set (b := nth (Z.to_nat sp) seq 0).
    set (e := nth (Z.to_nat entry) d 0).
    set (d1 := set_nth (Z.to_nat entry) _ d).
    assert (L1 : length d1 = length d) by apply set_nth_length.
    assert (Ok1 : bytes_ok d1)
      by (apply bytes_ok_set_nth; auto using wrap_uchar_byte).
    assert (B1 : forall i, 0 <= i ->
      bit_at d1 i =
      if (8 * entry + shift <=? i) && (i <? 8 * entry + shift + r) &&
         (i <? 8 * entry + 8)
      then bit_at seq (8 * sp + (i - (8 * entry + shift)))
      else bit_at d i).
    { intros i Hi. unfold d1. rewrite bit_at_store by assumption.
      assert (Him : 0 <= i mod 8 < 8) by (apply Z.mod_pos_bound; lia).
      destruct (Z.eqb_spec (i / 8) entry) as [E|E].
      - rewrite write_tail_lo_bits by lia.
        unfold e. replace (nth (Z.to_nat entry) d 0)
          with (nth (Z.to_nat (i / 8)) d 0) by (rewrite E; reflexivity).
        fold (bit_at d i).
        destruct (Z.leb_spec shift (i mod 8)),
                 (Z.ltb_spec (i mod 8) (shift + r)),
                 (Z.leb_spec (8 * entry + shift) i),
                 (Z.ltb_spec i (8 * entry + shift + r)),
                 (Z.ltb_spec i (8 * entry + 8)); cbn [andb]; auto;
          try (exfalso; Z.div_mod_to_equations; lia).
        rewrite bit_at_byte by lia. fold b. f_equal.
        Z.div_mod_to_equations. lia.
      - destruct (Z.leb_spec (8 * entry + shift) i),
                 (Z.ltb_spec i (8 * entry + shift + r)),
                 (Z.ltb_spec i (8 * entry + 8)); cbn [andb]; auto;
          exfalso; Z.div_mod_to_equations; lia. }
    destruct (Z.ltb_spec 8 (shift + r)) as [Hend|Hend].
    + assert (Hin' : 0 <= entry + 1 < Z.of_nat (length d1)) by lia.
      unfold tail_mask. rewrite (wrap_int_small (shift + r)) by lia.
      destruct (Z.ltb_spec (shift + r) 8) as [|_]; [lia|].
      rewrite load_in by assumption. cbn [bind].
      rewrite store_in by assumption. cbn [bind].
      rewrite load_store_same by assumption. cbn [bind].
      rewrite store_store_same by assumption.
      eexists. split; [reflexivity|].
      split; [rewrite set_nth_length; assumption|].
      split; [apply bytes_ok_set_nth; auto using wrap_uchar_byte|].
      intros i Hi. rewrite bit_at_store by assumption.
      assert (Him : 0 <= i mod 8 < 8) by (apply Z.mod_pos_bound; lia).
      destruct (Z.eqb_spec (i / 8) (entry + 1)) as [E|E].
      * rewrite write_tail_hi_bits by lia.
        replace (nth (Z.to_nat (entry + 1)) d1 0) with
          (nth (Z.to_nat (i / 8)) d1 0) by (rewrite E; reflexivity).
        fold (bit_at d1 i). rewrite B1 by assumption.
        destruct (Z.ltb_spec (i mod 8) (shift + r - 8)),
                 (Z.leb_spec (8 * entry + shift) i),
                 (Z.ltb_spec i (8 * entry + shift + r)),
                 (Z.ltb_spec i (8 * entry + 8)); cbn [andb]; auto;
          try (exfalso; Z.div_mod_to_equations; lia).
        rewrite bit_at_byte by lia. fold b. f_equal.
        Z.div_mod_to_equations. lia.
      * rewrite B1 by assumption.
        destruct (Z.leb_spec (8 * entry + shift) i),
                 (Z.ltb_spec i (8 * entry + shift + r)),
                 (Z.ltb_spec i (8 * entry + 8)); cbn [andb]; auto;
          exfalso; Z.div_mod_to_equations; lia.
    + exists d1. repeat split; auto. intros i Hi. rewrite B1 by assumption.
      destruct (Z.leb_spec (8 * entry + shift) i),
               (Z.ltb_spec i (8 * entry + shift + r)),
               (Z.ltb_spec i (8 * entry + 8)); cbn [andb]; auto;
        exfalso; Z.div_mod_to_equations; lia.
Qed.

End WriteLoop.

Lemma write_spec s d index seq count :
  wf s d -> 0 <= index -> 0 <= count -> index + count <= capacity s ->
  ceil8 count <= Z.of_nat (length seq) ->
  exists d',
    bitset_write s index seq count = Some (set_data s (Some d'), count) /\
    wf (set_data s (Some d')) d' /\
    length d' = length d /\
    forall i, 0 <= i ->
      bit_at d' i =
      if (index <=? i) && (i <? index + count) then bit_at seq (i - index)
      else bit_at d i.
Proof.
  intros Hwf Hi Hc Hfit Hseq. pose proof Hwf as (Hd & Hok & Hcap & Hlt).
  unfold ceil8 in Hseq.
  assert (Hs : 0 <= index mod 8 < 8) by (apply Z.mod_pos_bound; lia).
  assert (Hq : 0 <= count / 8) by (Z.div_mod_to_equations; lia).
  assert (Hr : 0 <= count mod 8 < 8) by (apply Z.mod_pos_bound; lia).
  unfold bitset_write. rewrite Hd. cbn [bind].
  rewrite land7, wrap_int_small, shiftr3 by lia. unfold bitset_byte_at.
  destruct (write_loop_spec (index mod 8) seq Hs (Z.to_nat (count / 8))
              d (index / 8) 0 count) as (d1 & E1 & L1 & Ok1 & B1);
    try (Z.div_mod_to_equations; lia); auto.
  rewrite E1. cbn [bind].
  destruct (write_tail_spec (index mod 8) seq Hs d1
              (index / 8 + count / 8) (0 + count / 8) (count mod 8))
    as (d2 & E2 & L2 & Ok2 & B2);
    try (Z.div_mod_to_equations; lia); auto.
  rewrite E2. cbn [bind].
  exists d2. split; [reflexivity|].
  split; [eapply wf_set_data; eauto; lia|].
  split; [lia|].
  intros i Hi0. rewrite B2, B1 by assumption.
  destruct (Z.leb_spec (8 * (index / 8 + count / 8) + index mod 8) i),
           (Z.ltb_spec i (8 * (index / 8 + count / 8) + index mod 8
                          + count mod 8)),
           (Z.leb_spec (8 * (index / 8) + index mod 8) i),
           (Z.ltb_spec i (8 * (index / 8) + index mod 8 + 8 * (count / 8))),
           (Z.leb_spec index i), (Z.ltb_spec i (index + count));
    cbn [andb]; auto;
    try (exfalso; Z.div_mod_to_equations; lia);
    f_equal; Z.div_mod_to_equations; lia.
Qed.

(** ** Bulk read: [bitset_read] *)

Section ReadLoop.

Variables (shift : Z) (d : list Z).
Hypothesis shift_range : 0 <= shift < 8.
Hypothesis d_ok : bytes_ok d.

Let mask := c_shl (c_not 0) shift.

Lemma entry_bit entry k :
  0 <= entry -> 0 <= k < 8 ->
  Z.testbit (nth (Z.to_nat entry) d 0) k = bit_at d (8 * entry + k).
Proof. intros. rewrite bit_at_byte by lia. reflexivity. Qed.

(** One iteration of the loop ORs the eight bits that start at bit
    [8 * entry + shift] of the bitset into [seq[sp]]. *)
Lemma read_loop_step fuel seq entry sp sz :
  8 <= sz < 2 ^ 64 -> bytes_ok seq ->
  0 <= entry -> 8 * entry + shift + 8 <= 8 * Z.of_nat (length d) ->
  0 <= sp < Z.of_nat (length seq) ->
  exists seq',
    read_loop (S fuel) shift mask d seq entry sp sz =
    read_loop fuel shift mask d seq' (entry + 1) (sp + 1) (sz - 8) /\
    length seq' = length seq /\ bytes_ok seq' /\
    forall j, 0 <= j ->
      bit_at seq' j =
      bit_at seq j ||
      ((8 * sp <=? j) && (j <? 8 * sp + 8) &&
       bit_at d (8 * entry + shift + (j - 8 * sp))).
Proof.
  intros Hsz Hok He Hfit Hsp.
  assert (Hin : 0 <= entry < Z.of_nat (length d)) by lia.
  cbn [read_loop]. rewrite shiftr3.
  destruct (Z.eqb_spec (sz / 8) 0) as [Hz|_];
    [exfalso; Z.div_mod_to_equations; lia|].
  rewrite (load_in seq) by assumption. cbn [bind].
  rewrite (load_in d) by assumption. cbn [bind].
  rewrite store_in by assumption. cbn [bind].
  rewrite (wrap_size_small (sz - 8)) by lia.
  set (b := nth (Z.to_nat sp) seq 0).
  set (e := nth (Z.to_nat entry) d 0).
  assert (Hbe : is_byte e) by (apply bytes_ok_nth; assumption).
  set (b1 := wrap_uchar (Z.lor b (c_shr (Z.land e mask) shift))).
  assert (Hb1 : is_byte b1) by apply wrap_uchar_byte.
  assert (B1 : forall k, 0 <= k < 8 ->
    Z.testbit b1 k =
    Z.testbit b k || ((k <? 8 - shift) && bit_at d (8 * entry + shift + k))).
  { intros k Hk. unfold b1, mask. rewrite read_lo_bits by auto.
    destruct (Z.ltb_spec k (8 - shift)); cbn [andb]; auto.
    unfold e. rewrite entry_bit by lia. do 2 f_equal. lia. }
  destruct (Z.eqb_spec shift 0) as [Hs0|Hs0].
  - eexists. split; [reflexivity|].
    split; [apply set_nth_length|].
    split; [apply bytes_ok_set_nth; auto using wrap_uchar_byte|].
    intros j Hj. rewrite bit_at_store by assumption.
    assert (Hjm : 0 <= j mod 8 < 8) by (apply Z.mod_pos_bound; lia).
    destruct (Z.eqb_spec (j / 8) sp) as [E|E].
    + fold b1. rewrite B1 by assumption.
      unfold b. replace (nth (Z.to_nat sp) seq 0)
        with (nth (Z.to_nat (j / 8)) seq 0) by (rewrite E; reflexivity).
      fold (bit_at seq j).
      destruct (Z.ltb_spec (j mod 8) (8 - shift)),
               (Z.leb_spec (8 * sp) j), (Z.ltb_spec j (8 * sp + 8));
        cbn [andb]; auto; try (exfalso; Z.div_mod_to_equations; lia).
      do 2 f_equal. Z.div_mod_to_equations. lia.
    + destruct (Z.leb_spec (8 * sp) j), (Z.ltb_spec j (8 * sp + 8));
        cbn [andb]; rewrite ?orb_false_r; auto;
        exfalso; Z.div_mod_to_equations; lia.
  - assert (Hin' : 0 <= entry + 1 < Z.of_nat (length d)) by lia.
    rewrite load_store_same by assumption. cbn [bind].
    rewrite (load_in d) by assumption. cbn [bind].
    rewrite store_store_same by assumption.
    set (e' := nth (Z.to_nat (entry + 1)) d 0).
    fold b1.
    eexists. split; [reflexivity|].
    split; [apply set_nth_length|].
    split; [apply bytes_ok_set_nth; auto using wrap_uchar_byte|].
    intros j Hj. rewrite bit_at_store by assumption.
    assert (Hjm : 0 <= j mod 8 < 8) by (apply Z.mod_pos_bound; lia).
    destruct (Z.eqb_spec (j / 8) sp) as [E|E].
    + unfold mask. rewrite read_hi_bits by auto. rewrite B1 by assumption.
      unfold b. replace (nth (Z.to_nat sp) seq 0)
        with (nth (Z.to_nat (j / 8)) seq 0) by (rewrite E; reflexivity).
      fold (bit_at seq j).
      destruct (Z.ltb_spec (j mod 8) (8 - shift)),
               (Z.leb_spec (8 - shift) (j mod 8)),
               (Z.leb_spec (8 * sp) j), (Z.ltb_spec j (8 * sp + 8));
        cbn [andb]; rewrite ?orb_false_r; auto;
        try (exfalso; Z.div_mod_to_equations; lia).
      * do 2 f_equal. Z.div_mod_to_equations. lia.
      * unfold e'. rewrite entry_bit by lia. do 2 f_equal.
        Z.div_mod_to_equations. lia.
    + destruct (Z.leb_spec (8 * sp) j), (Z.ltb_spec j (8 * sp + 8));
        cbn [andb]; rewrite ?orb_false_r; auto;
        exfalso; Z.div_mod_to_equations; lia.
Qed.

Lemma read_loop_exit fuel seq entry sp sz :
  0 <= sz < 8 ->
  read_loop fuel shift mask d seq entry sp sz = Some (mk_cursor seq entry sp sz).
Proof.
  intros H. destruct fuel; cbn [read_loop]; rewrite shiftr3;
    replace (sz / 8) with 0 by (Z.div_mod_to_equations; lia); reflexivity.
Qed.

Lemma read_loop_spec fuel : forall seq entry sp sz,
  0 <= sz < 2 ^ 64 -> sz / 8 <= Z.of_nat fuel -> bytes_ok seq ->
  0 <= entry -> 8 * entry + shift + sz <= 8 * Z.of_nat (length d) ->
  0 <= sp -> sp + sz / 8 <= Z.of_nat (length seq) ->
  exists seq',
    read_loop fuel shift mask d seq entry sp sz =
    Some (mk_cursor seq' (entry + sz / 8) (sp + sz / 8) (sz mod 8)) /\
    length seq' = length seq /\ bytes_ok seq' /\
    forall j, 0 <= j ->
      bit_at seq' j =
      bit_at seq j ||
      ((8 * sp <=? j) && (j <? 8 * sp + 8 * (sz / 8)) &&
       bit_at d (8 * entry + shift + (j - 8 * sp))).
Proof.
  induction fuel as [|fuel IH];
    intros seq entry sp sz Hsz Hfuel Hok He Hfit Hsp Hseq.
  - assert (Hlt : 0 <= sz < 8) by (Z.div_mod_to_equations; lia).
    rewrite read_loop_exit by assumption.
    assert (Hq : sz / 8 = 0) by (Z.div_mod_to_equations; lia).
    assert (Hr : sz mod 8 = sz) by (Z.div_mod_to_equations; lia).
    rewrite Hq, Hr, !Z.add_0_r. exists seq. repeat split; auto.
    intros j Hj. split_tests; cbn [andb]; rewrite ?orb_false_r; auto; lia.
  - destruct (Z.lt_ge_cases sz 8) as [Hsmall|Hbig].
    + assert (Hlt : 0 <= sz < 8) by lia.
      rewrite read_loop_exit by assumption.
      assert (Hq : sz / 8 = 0) by (Z.div_mod_to_equations; lia).
      assert (Hr : sz mod 8 = sz) by (Z.div_mod_to_equations; lia).
      rewrite Hq, Hr, !Z.add_0_r. exists seq. repeat split; auto.
      intros j Hj. split_tests; cbn [andb]; rewrite ?orb_false_r; auto; lia.
    + assert (Hq : sz / 8 = (sz - 8) / 8 + 1) by (Z.div_mod_to_equations; lia).
      assert (Hr : sz mod 8 = (sz - 8) mod 8) by (Z.div_mod_to_equations; lia).
      assert (Hq0 : 0 <= (sz - 8) / 8) by (Z.div_mod_to_equations; lia).
      destruct (read_loop_step fuel seq entry sp sz)
        as (s1 & E1 & L1 & Ok1 & B1); try lia; auto.
      destruct (IH s1 (entry + 1) (sp + 1) (sz - 8))
        as (s2 & E2 & L2 & Ok2 & B2); try lia; auto.
      exists s2. rewrite E1, E2, Hq, Hr.
      split; [f_equal; f_equal; lia|].
      split; [lia|]. split; [assumption|].
      intros j Hj. rewrite B2, B1 by assumption.
      destruct (Z.leb_spec (8 * (sp + 1)) j),
               (Z.ltb_spec j (8 * (sp + 1) + 8 * ((sz - 8) / 8))),
               (Z.leb_spec (8 * sp) j),
               (Z.ltb_spec j (8 * sp + 8)),
               (Z.ltb_spec j (8 * sp + 8 * ((sz - 8) / 8 + 1)));
        cbn [andb]; rewrite ?orb_false_r; auto; try lia.
      do 2 f_equal. lia.
Qed.

Lemma read_tail_spec seq entry sp r :
  0 <= r < 8 -> bytes_ok seq ->
  0 <= entry -> 8 * entry + shift + r <= 8 * Z.of_nat (length d) ->
  0 <= sp -> (0 < r -> sp < Z.of_nat (length seq)) ->
  exists seq',
    read_tail shift mask d (mk_cursor seq entry sp r) = Some seq' /\
    length seq' = length seq /\ bytes_ok seq' /\
    forall j, 0 <= j ->
      bit_at seq' j =
      bit_at seq j ||
      ((8 * sp <=? j) && (j <? 8 * sp + r) &&
       bit_at d (8 * entry + shift + (j - 8 * sp))).
Proof.
  intros Hr Hok He Hfit Hsp Hseq.
  unfold read_tail. cbn [c_mem c_entry c_sp c_size].
  destruct (Z.eqb_spec r 0) as [Hr0|Hr0].
  - exists seq. repeat split; auto. intros j Hj.
    split_tests; cbn [andb]; rewrite ?orb_false_r; auto; lia.
  - assert (Hin : 0 <= entry < Z.of_nat (length d)) by lia.
    assert (Hsp' : 0 <= sp < Z.of_nat (length seq)) by lia.
    fold mask. unfold mask. fold (tail_mask shift r).
    rewrite (wrap_int_small (shift + r)) by lia.
    rewrite (load_in seq) by assumption. cbn [bind].
    rewrite (load_in d) by assumption. cbn [bind].
    rewrite store_in by assumption. cbn [bind].
    set (b := nth (Z.to_nat sp) seq 0).
    set (e := nth (Z.to_nat entry) d 0).
    assert (Hbe : is_byte e) by (apply bytes_ok_nth; assumption).
    set (b1 := wrap_uchar (Z.lor b (c_shr (Z.land e (tail_mask shift r)) shift))).
    assert (Hb1 : is_byte b1) by apply wrap_uchar_byte.
    assert (B1 : forall k, 0 <= k < 8 ->
      Z.testbit b1 k =
      Z.testbit b k ||
      ((k <? r) && (k <? 8 - shift) && bit_at d (8 * entry + shift + k))).
    { intros k Hk. unfold b1. rewrite read_tail_lo_bits by (auto; lia).
      destruct (Z.ltb_spec k r), (Z.ltb_spec k (8 - shift)); cbn [andb]; auto.
      unfold e. rewrite entry_bit by lia. do 2 f_equal. lia. }
    destruct (Z.ltb_spec 8 (shift + r)) as [Hend|Hend].
    + assert (Hin' : 0 <= entry + 1 < Z.of_nat (length d)) by lia.
      rewrite load_store_same by assumption. cbn [bind].
      rewrite (load_in d) by assumption. cbn [bind].
      rewrite store_store_same by assumption.
      fold b1.
      unfold tail_mask at 1. rewrite (wrap_int_small (shift + r)) by lia.
      destruct (Z.ltb_spec (shift + r) 8) as [|_]; [lia|].
      set (e' := nth (Z.to_nat (entry + 1)) d 0).
      eexists. split; [reflexivity|].
      split; [apply set_nth_length|].
      split; [apply bytes_ok_set_nth; auto using wrap_uchar_byte|].
      intros j Hj. rewrite bit_at_store by assumption.
      assert (Hjm : 0 <= j mod 8 < 8) by (apply Z.mod_pos_bound; lia).
      destruct (Z.eqb_spec (j / 8) sp) as [E|E].
      * rewrite read_tail_hi_bits by (auto; lia). rewrite B1 by assumption.
        unfold b. replace (nth (Z.to_nat sp) seq 0)
          with (nth (Z.to_nat (j / 8)) seq 0) by (rewrite E; reflexivity).
        fold (bit_at seq j).
        destruct (Z.ltb_spec (j mod 8) r),
                 (Z.ltb_spec (j mod 8) (8 - shift)),
                 (Z.leb_spec (8 - shift) (j mod 8)),
                 (Z.leb_spec (8 * sp) j), (Z.ltb_spec j (8 * sp + r));
          cbn [andb]; rewrite ?orb_false_r; auto;
          try (exfalso; Z.div_mod_to_equations; lia).
        -- do 2 f_equal. Z.div_mod_to_equations. lia.
        -- unfold e'. rewrite entry_bit by lia. do 2 f_equal.
           Z.div_mod_to_equations. lia.
      * destruct (Z.leb_spec (8 * sp) j), (Z.ltb_spec j (8 * sp + r));
          cbn [andb]; rewrite ?orb_false_r; auto;
          exfalso; Z.div_mod_to_equations; lia.
    + fold b1. eexists. split; [reflexivity|].
      split; [apply set_nth_length|].
      split; [apply bytes_ok_set_nth; auto using wrap_uchar_byte|].
      intros j Hj. rewrite bit_at_store by assumption.
      assert (Hjm : 0 <= j mod 8 < 8) by (apply Z.mod_pos_bound; lia).
      destruct (Z.eqb_spec (j / 8) sp) as [E|E].
      * rewrite B1 by assumption.
        unfold b. replace (nth (Z.to_nat sp) seq 0)
          with (nth (Z.to_nat (j / 8)) seq 0) by (rewrite E; reflexivity).
        fold (bit_at seq j).
        destruct (Z.ltb_spec (j mod 8) r),
                 (Z.ltb_spec (j mod 8) (8 - shift)),
                 (Z.leb_spec (8 * sp) j), (Z.ltb_spec j (8 * sp + r));
          cbn [andb]; rewrite ?orb_false_r; auto;
          try (exfalso; Z.div_mod_to_equations; lia).
        do 2 f_equal. Z.div_mod_to_equations. lia.
      * destruct (Z.leb_spec (8 * sp) j), (Z.ltb_spec j (8 * sp + r));
          cbn [andb]; rewrite ?orb_false_r; auto;
          exfalso; Z.div_mod_to_equations; lia.
Qed.

End ReadLoop.

Lemma read_spec s d index seq count :
  wf s d -> 0 <= index -> 0 <= count -> index + count <= capacity s ->
  ceil8 count <= Z.of_nat (length seq) -> bytes_ok seq ->
  exists seq',
    bitset_read s index seq count = Some (seq', count) /\
    length seq' = length seq /\ bytes_ok seq' /\
    forall j, 0 <= j ->
      bit_at seq' j = bit_at seq j || ((j <? count) && bit_at d (index + j)).
Proof.
  intros Hwf Hi Hc Hfit Hseq Hsok. pose proof Hwf as (Hd & Hok & Hcap & Hlt).
  unfold ceil8 in Hseq.
  assert (Hs : 0 <= index mod 8 < 8) by (apply Z.mod_pos_bound; lia).
  assert (Hq : 0 <= count / 8) by (Z.div_mod_to_equations; lia).
  assert (Hr : 0 <= count mod 8 < 8) by (apply Z.mod_pos_bound; lia).
  unfold bitset_read. rewrite Hd. cbn [bind].
  rewrite land7, wrap_int_small, shiftr3 by lia. unfold bitset_byte_at.
  destruct (read_loop_spec (index mod 8) d Hs Hok (Z.to_nat (count / 8))
              seq (index / 8) 0 count) as (s1 & E1 & L1 & Ok1 & B1);
    try (Z.div_mod_to_equations; lia); auto.
  rewrite E1. cbn [bind].
  destruct (read_tail_spec (index mod 8) d Hs Hok s1
              (index / 8 + count / 8) (0 + count / 8) (count mod 8))
    as (s2 & E2 & L2 & Ok2 & B2);
    try (Z.div_mod_to_equations; lia); auto.
  rewrite E2. cbn [bind].
  exists s2. split; [reflexivity|].
  split; [lia|]. split; [assumption|].
  intros j Hj. rewrite B2, B1 by assumption.
  destruct (Z.leb_spec (8 * (0 + count / 8)) j),
           (Z.ltb_spec j (8 * (0 + count / 8) + count mod 8)),
           (Z.leb_spec (8 * 0) j),
           (Z.ltb_spec j (8 * 0 + 8 * (count / 8))),
           (Z.ltb_spec j count);
    cbn [andb]; rewrite ?orb_false_r; auto;
    try (exfalso; Z.div_mod_to_equations; lia);
    do 2 f_equal; Z.div_mod_to_equations; lia.
Qed.

(** ** The reference packing [bits_of] *)

Lemma bits_to_Z_range n : forall f base, 0 <= bits_to_Z n f base < 2 ^ Z.of_nat n.
Proof.
  induction n as [|n IH]; intros f base.
  - simpl. lia.
  - cbn [bits_to_Z]. rewrite Nat2Z.inj_succ, Z.pow_succ_r by lia.
    specialize (IH f (base + 1)). destruct (f base); simpl Z.b2z; lia.
Qed.

Lemma testbit_bits_to_Z n : forall f base i,
  0 <= i ->
  Z.testbit (bits_to_Z n f base) i = (i <? Z.of_nat n) && f (base + i).
Proof.
  induction n as [|n IH]; intros f base i Hi.
  - simpl. rewrite Z.testbit_0_l. destruct (Z.ltb_spec i 0); [lia|reflexivity].
  - cbn [bits_to_Z]. rewrite Z.add_comm.
    destruct (Z.eq_dec i 0) as [->|Hne].
    + rewrite Z.testbit_0_r, Z.add_0_r.
      destruct (Z.ltb_spec 0 (Z.of_nat (S n))); [reflexivity|lia].
    + replace i with (Z.succ (i - 1)) at 1 by lia.
      rewrite Z.testbit_succ_r by lia. rewrite IH by lia.
      replace (base + 1 + (i - 1)) with (base + i) by lia.
      destruct (Z.ltb_spec (i - 1) (Z.of_nat n)),
               (Z.ltb_spec i (Z.of_nat (S n))); try lia; reflexivity.
Qed.

Lemma bits_of_length m index count n : length (bits_of m index count n) = n.
Proof. unfold bits_of. rewrite length_map, length_seq. reflexivity. Qed.

Lemma nth_map_seq (f : nat -> Z) n k :
  (k < n)%nat -> nth k (map f (seq 0 n)) 0 = f k.
Proof.
  intros Hk.
  rewrite (nth_indep _ 0 (f O)) by (rewrite length_map, length_seq; assumption).
  rewrite map_nth, seq_nth by assumption. reflexivity.
Qed.

Lemma nth_bits_of m index count n k :
  (k < n)%nat ->
  nth k (bits_of m index count n) 0 =
  bits_to_Z 8 (fun j => (j <? count) && bit_at m (index + j)) (8 * Z.of_nat k).
Proof. intros Hk. unfold bits_of. rewrite nth_map_seq by assumption. reflexivity. Qed.

Lemma bytes_ok_bits_of m index count n : bytes_ok (bits_of m index count n).
Proof.
  apply Forall_forall. intros x Hx. unfold bits_of in Hx.
  apply in_map_iff in Hx. destruct Hx as (k & <- & _).
  pose proof (bits_to_Z_range 8
    (fun j => (j <? count) && bit_at m (index + j)) (8 * Z.of_nat k)) as H.
  unfold is_byte. change (2 ^ Z.of_nat 8) with 256 in H. lia.
Qed.

Lemma bit_at_bits_of m index count n j :
  0 <= j ->
  bit_at (bits_of m index count n) j =
  (j / 8 <? Z.of_nat n) && (j <? count) && bit_at m (index + j).
Proof.
  intros Hj.
  assert (Hjm : 0 <= j mod 8 < 8) by (apply Z.mod_pos_bound; lia).
  assert (Hq : 0 <= j / 8) by (Z.div_mod_to_equations; lia).
  destruct (Z.ltb_spec (j / 8) (Z.of_nat n)) as [Hlt|Hge].
  - unfold bit_at at 1. rewrite nth_bits_of by lia.
    rewrite testbit_bits_to_Z by lia. rewrite Z2Nat.id by lia.
    change (Z.of_nat 8) with 8.
    destruct (Z.ltb_spec (j mod 8) 8); [|lia].
    replace (8 * (j / 8) + j mod 8) with j by (Z.div_mod_to_equations; lia).
    reflexivity.
  - apply bit_at_outside; [assumption|]. rewrite bits_of_length. assumption.
Qed.

Lemma bit_at_zeros n j : bit_at (zeros n) j = false.
Proof. unfold bit_at. rewrite nth_zeros. apply Z.testbit_0_l. Qed.

Lemma zeros_length n : length (zeros n) = n.
Proof. apply repeat_length. Qed.

Lemma set_data_same s d : data s = Some d -> set_data s (Some d) = s.
Proof. destruct s as [dt c z]. simpl. intros ->. reflexivity. Qed.

Lemma bit_at_firstn m n j :
  0 <= j -> j / 8 < Z.of_nat n -> bit_at (firstn n m) j = bit_at m j.
Proof.
  intros Hj Hn. unfold bit_at. f_equal.
  assert (Hq : 0 <= j / 8) by (Z.div_mod_to_equations; lia).
  revert Hn. generalize (j / 8) Hq. clear. intros q Hq Hn.
  assert (Hk : (Z.to_nat q < n)%nat) by lia.
  revert Hk. generalize (Z.to_nat q). clear. intros k.
  revert m k. induction n as [|n IH]; intros m k Hk; [lia|].
  destruct m as [|x t]; [destruct k; reflexivity|].
  destruct k as [|k]; simpl; auto. apply IH. lia.
Qed.

Ltac wf_bytes :=
  repeat split; try reflexivity;
  try (repeat constructor; unfold is_byte; lia); try (simpl; lia).

(** ** Single-bit access *)

(** C8.  For a bitset with a buffer, an index below the capacity and any
    state: [bitset_set] succeeds; [bitset_get] at the same index then
    returns a non-zero value exactly when the state is non-zero; every
    other bit has its prior value, every byte other than the one that
    holds the bit is the same, and capacity and size are the same. *)
Theorem set_get_frame (s : bitset) (d : list Z) (index state : Z) :
  wf s d -> 0 <= index < capacity s ->
  exists s' d',
    bitset_set s index state = Some s' /\
    wf s' d' /\ capacity s' = capacity s /\ size s' = size s /\
    (exists r, bitset_get s' index = Some r /\ (r <> 0 <-> state <> 0)) /\
    length d' = length d /\
    (forall j, 0 <= j -> j <> index -> bit_at d' j = bit_at d j) /\
    (forall k, k <> Z.to_nat (index / 8) -> nth k d' 0 = nth k d 0).
Proof.
  intros Hwf Hi.
  destruct (set_spec s d index state Hwf Hi) as (d' & E & Hwf' & L & N & B).
  exists (set_data s (Some d')), d'.
  split; [assumption|]. split; [assumption|].
  split; [reflexivity|]. split; [reflexivity|].
  split.
  - rewrite (get_spec _ d') by (simpl; auto).
    eexists. split; [reflexivity|].
    rewrite B by lia. rewrite Z.eqb_refl.
    assert (Hp : 0 < 2 ^ (index mod 8))
      by (apply Z.pow_pos_nonneg; [lia|apply Z.mod_pos_bound; lia]).
    destruct (Z.eqb_spec state 0); simpl; split; intros; lia.
  - split; [assumption|]. split; [|assumption].
    intros j Hj Hne. rewrite B by assumption.
    destruct (Z.eqb_spec j index); [contradiction|reflexivity].
Qed.

Lemma set_get_frame_witness :
  exists s' d',
    bitset_set (from_bytes [255; 255; 255] 24) 13 0 = Some s' /\
    wf s' d' /\ capacity s' = 24 /\ size s' = 24 /\
    (exists r, bitset_get s' 13 = Some r /\ (r <> 0 <-> 0 <> 0)) /\
    length d' = 3%nat /\
    (forall j, 0 <= j -> j <> 13 -> bit_at d' j = bit_at [255; 255; 255] j) /\
    (forall k, k <> Z.to_nat (13 / 8) ->
               nth k d' 0 = nth k [255; 255; 255] 0).
Proof.
  apply (set_get_frame (from_bytes [255; 255; 255] 24) [255; 255; 255] 13 0).
  - wf_bytes.
  - simpl. lia.
Defined.

(** ** Bulk write *)

(** C4.  For a bitset with a buffer and [index + count <= capacity], with
    an external sequence of at least [ceil(count / 8)] bytes:
    [bitset_write] succeeds and returns [count]; every bit below [index]
    and every bit at or beyond [index + count] keeps its prior value
    (whatever [count mod 8] is); the bits in between are those of the
    sequence; and the call on the sequence cut to its first
    [ceil(count / 8)] bytes gives the same result, so no byte beyond them
    is read. *)
Theorem write_frame (s : bitset) (d : list Z) (index : Z) (seq : list Z)
    (count : Z) :
  wf s d -> 0 <= index -> 0 <= count -> index + count <= capacity s ->
  ceil8 count <= Z.of_nat (length seq) ->
  exists d',
    bitset_write s index seq count = Some (set_data s (Some d'), count) /\
    length d' = length d /\
    (forall i, 0 <= i -> ~ (index <= i < index + count) ->
               bit_at d' i = bit_at d i) /\
    (forall i, index <= i < index + count ->
               bit_at d' i = bit_at seq (i - index)) /\
    bitset_write s index (firstn (Z.to_nat (ceil8 count)) seq) count =
    bitset_write s index seq count.
Proof.
  intros Hwf Hi Hc Hfit Hseq.
  destruct (write_spec s d index seq count) as (d' & E & Hwf' & L & B); auto.
  assert (Hc8 : 0 <= ceil8 count)
    by (unfold ceil8; Z.div_mod_to_equations; lia).
  destruct (write_spec s d index (firstn (Z.to_nat (ceil8 count)) seq) count)
    as (d'' & E' & Hwf'' & L' & B'); auto.
  { rewrite length_firstn. lia. }
  exists d'. split; [assumption|]. split; [assumption|].
  split; [|split].
  - intros i Hi0 Hout. rewrite B by assumption.
    destruct (Z.leb_spec index i), (Z.ltb_spec i (index + count));
      cbn [andb]; auto; lia.
  - intros i Hin. rewrite B by lia.
    destruct (Z.leb_spec index i), (Z.ltb_spec i (index + count));
      cbn [andb]; auto; lia.
  - rewrite E, E'. replace d'' with d'; [reflexivity|].
    destruct Hwf' as (_ & Ok' & _). destruct Hwf'' as (_ & Ok'' & _).
    apply bits_ext; auto; [lia|].
    intros i Hi0. rewrite B, B' by assumption.
    destruct (Z.leb_spec index i), (Z.ltb_spec i (index + count));
      cbn [andb]; auto.
    symmetry. apply bit_at_firstn; [lia|].
    unfold ceil8 in *. Z.div_mod_to_equations. lia.
Qed.

Lemma write_frame_witness :
  exists d',
    bitset_write (from_bytes [255; 255; 255] 24) 3 [179; 15] 12 =
    Some (set_data (from_bytes [255; 255; 255] 24) (Some d'), 12) /\
    length d' = 3%nat /\
    (forall i, 0 <= i -> ~ (3 <= i < 3 + 12) ->
               bit_at d' i = bit_at [255; 255; 255] i) /\
    (forall i, 3 <= i < 3 + 12 -> bit_at d' i = bit_at [179; 15] (i - 3)) /\
    bitset_write (from_bytes [255; 255; 255] 24) 3
      (firstn (Z.to_nat (ceil8 12)) [179; 15]) 12 =
    bitset_write (from_bytes [255; 255; 255] 24) 3 [179; 15] 12.
Proof.
  apply (write_frame (from_bytes [255; 255; 255] 24) [255; 255; 255] 3
           [179; 15] 12).
  - wf_bytes.
  - lia.
  - lia.
  - simpl. lia.
  - vm_compute. discriminate.
Defined.

(** ** Bulk read *)

Lemma read_zeros s d index count n :
  wf s d -> 0 <= index -> 0 <= count -> index + count <= capacity s ->
  ceil8 count <= Z.of_nat n ->
  bitset_read s index (zeros n) count = Some (bits_of d index count n, count).
Proof.
  intros Hwf Hi Hc Hfit Hn.
  destruct (read_spec s d index (zeros n) count)
    as (seq' & E & L & Ok & B); auto using bytes_ok_zeros.
  { rewrite zeros_length. assumption. }
  rewrite E. do 2 f_equal. rewrite zeros_length in L.
  apply bits_ext; auto using bytes_ok_bits_of.
  { rewrite bits_of_length. assumption. }
  intros j Hj. rewrite B, bit_at_zeros, bit_at_bits_of by assumption.
  cbn [orb].
  destruct (Z.ltb_spec (j / 8) (Z.of_nat n)), (Z.ltb_spec j count);
    cbn [andb]; auto.
  exfalso. unfold ceil8 in Hn. Z.div_mod_to_equations. lia.
Qed.

Lemma lor_byte a b : is_byte a -> is_byte b -> is_byte (Z.lor a b).
Proof.
  intros Ha Hb.
  assert (H : Z.lor a b = wrap_uchar (Z.lor a b)).
  { apply Z.bits_inj'. intros i Hi. unfold wrap_uchar.
    rewrite Z.testbit_mod_pow2, Z.lor_spec by lia.
    destruct (Z.ltb_spec i 8); [reflexivity|].
    rewrite !byte_high_bits by (auto; lia). reflexivity. }
  rewrite H. apply wrap_uchar_byte.
Qed.

(** C10, as the code has it.  For a bitset with a buffer,
    [index + count <= capacity] and a destination of at least
    [ceil(count / 8)] bytes: [bitset_read] succeeds and returns [count];
    each destination byte afterwards is its prior value OR the byte of the
    extracted bits [bits_of d index count]; no destination bit that was
    set is cleared; so the destination ends up holding exactly the
    extracted bits if and only if every bit that was set in it before the
    call is also set in the extracted bits, and in particular whenever its
    bytes were all zero before the call. *)
Theorem read_ors_into_dest (s : bitset) (d : list Z) (index : Z)
    (dest : list Z) (count : Z) :
  wf s d -> 0 <= index -> 0 <= count -> index + count <= capacity s ->
  ceil8 count <= Z.of_nat (length dest) -> bytes_ok dest ->
  exists dest',
    bitset_read s index dest count = Some (dest', count) /\
    length dest' = length dest /\
    (forall k, nth k dest' 0 =
               Z.lor (nth k dest 0)
                 (nth k (bits_of d index count (length dest)) 0)) /\
    (forall j, 0 <= j -> bit_at dest j = true -> bit_at dest' j = true) /\
    (dest' = bits_of d index count (length dest) <->
     forall j, 0 <= j -> bit_at dest j = true ->
               bit_at (bits_of d index count (length dest)) j = true) /\
    (dest = zeros (length dest) ->
     dest' = bits_of d index count (length dest)).
Proof.
  intros Hwf Hi Hc Hfit Hn Hok.
  destruct (read_spec s d index dest count) as (dest' & E & L & Ok' & B); auto.
  set (ext := bits_of d index count (length dest)).
  assert (F : forall j, 0 <= j ->
            bit_at dest' j = bit_at dest j || bit_at ext j).
  { intros j Hj. unfold ext. rewrite B, bit_at_bits_of by assumption.
    destruct (Z.ltb_spec (j / 8) (Z.of_nat (length dest))),
             (Z.ltb_spec j count); cbn [andb]; auto.
    exfalso. unfold ceil8 in Hn. Z.div_mod_to_equations. lia. }
  assert (Hback : (forall j, 0 <= j -> bit_at dest j = true ->
                             bit_at ext j = true) -> dest' = ext).
  { intros Hsub. apply bits_ext; auto.
    - unfold ext. rewrite bits_of_length. assumption.
    - apply bytes_ok_bits_of.
    - intros j Hj. rewrite F by assumption.
      destruct (bit_at dest j) eqn:Ed; [|reflexivity].
      rewrite (Hsub j Hj Ed). reflexivity. }
  exists dest'. split; [assumption|]. split; [assumption|].
  split; [|split; [|split; [split|]]].
  - intros k.
    destruct (Nat.lt_ge_cases k (length dest)) as [Hk|Hk].
    + apply byte_bits_inj.
      * apply bytes_ok_nth. assumption.
      * apply lor_byte; apply bytes_ok_nth; auto; apply bytes_ok_bits_of.
      * intros i Hi8. rewrite Z.lor_spec.
        pose proof (F (8 * Z.of_nat k + i)) as Fk.
        rewrite !bit_at_byte, Nat2Z.id in Fk by lia. apply Fk. lia.
    + rewrite !nth_overflow; try reflexivity; try lia.
      unfold ext. rewrite bits_of_length. assumption.
  - intros j Hj Hset. rewrite F, Hset by assumption. reflexivity.
  - intros Heq j Hj Hset. rewrite <- Heq, F, Hset by assumption. reflexivity.
  - exact Hback.
  - intros Hz. apply Hback. intros j Hj Hset.
    rewrite Hz, bit_at_zeros in Hset. discriminate.
Qed.

Lemma read_ors_into_dest_witness :
  exists dest',
    bitset_read (from_bytes [152; 125; 0] 24) 3 [64; 1] 12 =
    Some (dest', 12) /\
    length dest' = length [64; 1] /\
    (forall k, nth k dest' 0 =
               Z.lor (nth k [64; 1] 0)
                 (nth k (bits_of [152; 125; 0] 3 12 (length [64; 1])) 0)) /\
    (forall j, 0 <= j -> bit_at [64; 1] j = true -> bit_at dest' j = true) /\
    (dest' = bits_of [152; 125; 0] 3 12 (length [64; 1]) <->
     forall j, 0 <= j -> bit_at [64; 1] j = true ->
               bit_at (bits_of [152; 125; 0] 3 12 (length [64; 1])) j = true) /\
    ([64; 1] = zeros (length [64; 1]) ->
     dest' = bits_of [152; 125; 0] 3 12 (length [64; 1])).
Proof.
  apply (read_ors_into_dest (from_bytes [152; 125; 0] 24) [152; 125; 0] 3
           [64; 1] 12).
  - wf_bytes.
  - lia.
  - lia.
  - simpl. lia.
  - vm_compute. discriminate.
  - wf_bytes.
Defined.

(** C10 as stated fails: a destination that is not all zero can still end
    up holding exactly the bitset's bits, when the bits set in it are set
    in the bitset too. *)
Lemma read_nonzero_dest_equal :
  bitset_read (from_bytes [255] 8) 0 [1] 8 = Some ([255], 8) /\
  bits_of [255] 0 8 1 = [255] /\
  [1] <> zeros 1.
Proof.
  split; [vm_compute; reflexivity|].
  split; [vm_compute; reflexivity|].
  vm_compute. discriminate.
Qed.

(** ** Write then read, read then write *)

Lemma write_then_read s d index seq count n :
  wf s d -> 0 <= index -> 0 <= count -> index + count <= capacity s ->
  ceil8 count <= Z.of_nat (length seq) -> ceil8 count <= Z.of_nat n ->
  exists s',
    bitset_write s index seq count = Some (s', count) /\
    bitset_read s' index (zeros n) count = Some (bits_of seq 0 count n, count).
Proof.
  intros Hwf Hi Hc Hfit Hseq Hn.
  destruct (write_spec s d index seq count) as (d' & E & Hwf' & L & B); auto.
  exists (set_data s (Some d')). split; [assumption|].
  rewrite (read_zeros _ d') by auto. do 2 f_equal.
  apply bits_ext; auto using bytes_ok_bits_of.
  { rewrite !bits_of_length. reflexivity. }
  intros j Hj. rewrite !bit_at_bits_of by assumption.
  destruct (Z.ltb_spec (j / 8) (Z.of_nat n)), (Z.ltb_spec j count);
    cbn [andb]; auto.
  rewrite B by lia.
  destruct (Z.leb_spec index (index + j)),
           (Z.ltb_spec (index + j) (index + count)); cbn [andb]; try lia.
  f_equal. lia.
Qed.

(** C3, as the code has it.  For a bitset with a buffer, an index with
    [index mod 8 <> 0], a count with [index + count <= capacity] whose bits
    reach into a third byte of the bitset, a sequence of at least
    [ceil(count / 8)] bytes, and a destination of [n >= ceil(count / 8)]
    bytes that are all zero before the read: [bitset_write] followed by
    [bitset_read] at the same index leaves in the destination exactly the
    low [count] bits of the sequence, bit for bit, and zeros above them. *)
Theorem write_read_unaligned (s : bitset) (d : list Z) (index : Z)
    (seq : list Z) (count : Z) (n : nat) :
  wf s d -> 0 <= index -> index mod 8 <> 0 -> 0 <= count ->
  index + count <= capacity s -> 16 < index mod 8 + count ->
  ceil8 count <= Z.of_nat (length seq) -> ceil8 count <= Z.of_nat n ->
  exists s' dest',
    bitset_write s index seq count = Some (s', count) /\
    bitset_read s' index (zeros n) count = Some (dest', count) /\
    dest' = bits_of seq 0 count n /\
    forall j, 0 <= j < count -> bit_at dest' j = bit_at seq j.
Proof.
  intros Hwf Hi Hun Hc Hfit Hspan Hseq Hn.
  destruct (write_then_read s d index seq count n) as (s' & Ew & Er); auto.
  exists s', (bits_of seq 0 count n).
  split; [assumption|]. split; [assumption|]. split; [reflexivity|].
  intros j Hj. rewrite bit_at_bits_of by lia.
  destruct (Z.ltb_spec (j / 8) (Z.of_nat n)), (Z.ltb_spec j count);
    cbn [andb]; auto; try lia.
  exfalso. unfold ceil8 in Hn. Z.div_mod_to_equations. lia.
Qed.

Lemma write_read_unaligned_witness :
  exists s' dest',
    bitset_write (from_bytes [255; 0; 255] 24) 3 [179; 15; 5] 20 =
    Some (s', 20) /\
    bitset_read s' 3 (zeros 3) 20 = Some (dest', 20) /\
    dest' = bits_of [179; 15; 5] 0 20 3 /\
    forall j, 0 <= j < 20 -> bit_at dest' j = bit_at [179; 15; 5] j.
Proof.
  apply (write_read_unaligned (from_bytes [255; 0; 255] 24) [255; 0; 255] 3
           [179; 15; 5] 20 3).
  - wf_bytes.
  - lia.
  - vm_compute. discriminate.
  - lia.
  - simpl. lia.
  - vm_compute. reflexivity.
  - vm_compute. discriminate.
  - vm_compute. discriminate.
Defined.

(** C3 as stated fails when the destination is not zero beforehand: the
    bits that were set in it stay set. *)
Lemma write_read_dirty_dest :
  exists s' dest',
    bitset_write (from_bytes [255; 0; 255] 24) 3 [179; 15; 5] 20 =
    Some (s', 20) /\
    bitset_read s' 3 [255; 255; 255] 20 = Some (dest', 20) /\
    dest' = [255; 255; 255] /\
    bits_of [179; 15; 5] 0 20 3 = [179; 15; 5] /\
    dest' <> bits_of [179; 15; 5] 0 20 3 /\
    bit_at dest' 2 <> bit_at [179; 15; 5] 2.
Proof.
  eexists. eexists.
  split; [vm_compute; reflexivity|].
  split; [vm_compute; reflexivity|].
  split; [reflexivity|].
  split; [vm_compute; reflexivity|].
  split; [vm_compute; discriminate|].
  vm_compute. discriminate.
Qed.

(** C5, as the code has it.  For a bitset with a buffer and arbitrary
    contents and [index + count <= capacity]: reading [count] bits at
    [index] into a buffer of [n >= ceil(count / 8)] bytes that are all zero
    beforehand, and writing that buffer back at [index], gives back the
    bitset unchanged. *)
Theorem read_write_back (s : bitset) (d : list Z) (index count : Z) (n : nat) :
  wf s d -> 0 <= index -> 0 <= count -> index + count <= capacity s ->
  ceil8 count <= Z.of_nat n ->
  exists buf,
    bitset_read s index (zeros n) count = Some (buf, count) /\
    bitset_write s index buf count = Some (s, count).
Proof.
  intros Hwf Hi Hc Hfit Hn. pose proof Hwf as (Hd & Hok & Hcap & Hlt).
  exists (bits_of d index count n).
  split; [apply read_zeros; auto|].
  destruct (write_spec s d index (bits_of d index count n) count)
    as (d' & E & Hwf' & L & B); auto.
  { rewrite bits_of_length. assumption. }
  rewrite E. replace d' with d; [rewrite set_data_same by assumption; reflexivity|].
  destruct Hwf' as (_ & Ok' & _).
  apply bits_ext; auto.
  intros i Hi0. rewrite B by assumption.
  destruct (Z.leb_spec index i), (Z.ltb_spec i (index + count));
    cbn [andb]; auto.
  rewrite bit_at_bits_of by lia.
  destruct (Z.ltb_spec ((i - index) / 8) (Z.of_nat n)),
           (Z.ltb_spec (i - index) count); cbn [andb]; try lia.
  - f_equal. lia.
  - exfalso. unfold ceil8 in Hn. Z.div_mod_to_equations. lia.
Qed.

Lemma read_write_back_witness :
  exists buf,
    bitset_read (from_bytes [152; 125; 0] 24) 3 (zeros 2) 12 =
    Some (buf, 12) /\
    bitset_write (from_bytes [152; 125; 0] 24) 3 buf 12 =
    Some (from_bytes [152; 125; 0] 24, 12).
Proof.
  apply (read_write_back (from_bytes [152; 125; 0] 24) [152; 125; 0] 3 12 2).
  - wf_bytes.
  - lia.
  - lia.
  - simpl. lia.
  - vm_compute. discriminate.
Defined.

(** C5 as stated fails when the external buffer is not zero beforehand:
    the read leaves its set bits in place and the write copies them into
    the bitset. *)
Lemma read_write_dirty_buffer :
  exists buf s',
    bitset_read (from_bytes [0] 8) 0 [255] 8 = Some (buf, 8) /\
    bitset_write (from_bytes [0] 8) 0 buf 8 = Some (s', 8) /\
    data s' = Some [255] /\
    s' <> from_bytes [0] 8.
Proof.
  eexists. eexists.
  split; [vm_compute; reflexivity|].
  split; [vm_compute; reflexivity|].
  split; [reflexivity|].
  vm_compute. discriminate.
Qed.

(** ** Ranged clear *)

(** C1, as the code has it.  For a bitset with a buffer and
    [begin <= end < capacity], when [begin] and [end] fall in different
    bytes or [begin] lies in the first byte: [bitset_rclear] succeeds and
    returns [end - begin], every bit in [[begin, end)] is 0 afterwards and
    every other bit has its prior value; when the two fall in the same
    byte, that byte is ANDed with
    [~(~(~0 << (end - begin)) << (begin mod 8))]. *)
Theorem rclear_range (s : bitset) (d : list Z) (begin end_ : Z) :
  wf s d -> 0 <= begin <= end_ -> end_ < capacity s ->
  begin / 8 <> end_ / 8 \/ begin < 8 ->
  exists d',
    bitset_rclear s begin end_ = Some (set_data s (Some d'), end_ - begin) /\
    length d' = length d /\
    (forall i, begin <= i < end_ -> bit_at d' i = false) /\
    (forall i, 0 <= i -> ~ (begin <= i < end_) -> bit_at d' i = bit_at d i) /\
    (begin / 8 = end_ / 8 ->
     d' = set_nth (Z.to_nat (begin / 8))
            (wrap_uchar (Z.land (nth (Z.to_nat (begin / 8)) d 0)
                           (range_mask (begin mod 8) (end_ - begin)))) d).
Proof.
  intros Hwf Hbe He Hcase.
  destruct (rclear_spec s d begin end_) as (d' & E & Hwf' & L & B); auto.
  exists d'. split; [assumption|]. split; [assumption|].
  split; [|split].
  - intros i Hi. rewrite B by lia.
    destruct (Z.leb_spec begin i), (Z.ltb_spec i end_); cbn [andb]; auto; lia.
  - intros i Hi Hout. rewrite B by lia.
    destruct (Z.leb_spec begin i), (Z.ltb_spec i end_); cbn [andb]; auto; lia.
  - intros Hsame. destruct Hcase as [Hcase|Hlow]; [contradiction|].
    pose proof Hwf as (_ & _ & _ & Hlt).
    rewrite (rclear_same_byte s d begin end_) in E by (auto; lia).
    injection E as E. rewrite <- E. unfold same_byte_mask, range_mask.
    rewrite wrap_size_small by lia. rewrite (Z.mod_small begin 8) by lia.
    reflexivity.
Qed.

Lemma rclear_range_witness :
  exists d',
    bitset_rclear (from_bytes [255; 255; 255] 24) 3 21 =
    Some (set_data (from_bytes [255; 255; 255] 24) (Some d'), 21 - 3) /\
    length d' = length [255; 255; 255] /\
    (forall i, 3 <= i < 21 -> bit_at d' i = false) /\
    (forall i, 0 <= i -> ~ (3 <= i < 21) ->
               bit_at d' i = bit_at [255; 255; 255] i) /\
    (3 / 8 = 21 / 8 ->
     d' = set_nth (Z.to_nat (3 / 8))
            (wrap_uchar (Z.land (nth (Z.to_nat (3 / 8)) [255; 255; 255] 0)
                           (range_mask (3 mod 8) (21 - 3)))) [255; 255; 255]).
Proof.
  apply (rclear_range (from_bytes [255; 255; 255] 24) [255; 255; 255] 3 21).
  - wf_bytes.
  - lia.
  - simpl. lia.
  - left. vm_compute. discriminate.
Defined.

(** C1 as stated fails in three ways.  The mask the claim gives keeps the
    bits of the range and clears the ones above it, whereas the code clears
    the range; in a byte other than the first the code's mask is shifted by
    [begin], not by [begin mod 8], and clears nothing; and with
    [end = capacity] the code touches the byte after the buffer. *)
Lemma rclear_as_stated_fails :
  bitset_rclear (from_bytes [255] 8) 0 3 = Some (from_bytes [248] 8, 3) /\
  wrap_uchar (Z.land 255 (spec_same_byte_mask 0 3)) = 7 /\
  bitset_rclear (from_bytes [255; 255] 16) 8 11 =
    Some (from_bytes [255; 255] 16, 3) /\
  bit_at [255; 255] 8 = true /\
  bitset_rclear (from_bytes [255] 8) 3 8 = None.
Proof. vm_compute. repeat split; reflexivity. Qed.

(** ** Allocation: [bitset_internal_bytes], [bitset_malloc], [bitset_resize] *)

Lemma fresh_block_length old n fill :
  0 <= n -> Z.of_nat (length (fresh_block old n fill)) = n.
Proof.
  intros Hn. unfold fresh_block. rewrite length_map, length_seq.
  apply Z2Nat.id. assumption.
Qed.

Lemma nth_fresh_block old n fill k :
  Z.of_nat k < n ->
  nth k (fresh_block old n fill) 0 = nth k old (wrap_uchar (fill k)).
Proof.
  intros Hk. unfold fresh_block.
  rewrite (nth_map_seq (fun k => nth k old (wrap_uchar (fill k)))) by lia.
  reflexivity.
Qed.

Lemma bytes_ok_fresh_block old n fill :
  bytes_ok old -> bytes_ok (fresh_block old n fill).
Proof.
  intros Hok. apply Forall_forall. intros x Hx. unfold fresh_block in Hx.
  apply in_map_iff in Hx. destruct Hx as (k & <- & _).
  destruct (Nat.lt_ge_cases k (length old)) as [Hk|Hk].
  - rewrite (nth_indep old _ 0) by assumption. apply bytes_ok_nth. assumption.
  - rewrite nth_overflow by assumption. apply wrap_uchar_byte.
Qed.

(** The macro is [ceil(bits / 8)] for every non-zero [size_t]. *)
Lemma internal_bytes_ceil bits :
  0 < bits < 2 ^ 64 -> bitset_internal_bytes bits = ceil8 bits.
Proof.
  intros H. unfold bitset_internal_bytes, ceil8.
  rewrite (wrap_size_small (bits - 1)) by lia. rewrite shiftr3.
  rewrite wrap_size_small by (Z.div_mod_to_equations; lia).
  Z.div_mod_to_equations. lia.
Qed.

Lemma internal_bytes_zero : bitset_internal_bytes 0 = 2 ^ 61.
Proof. vm_compute. reflexivity. Qed.

Lemma internal_capacity_bytes bits :
  0 < bits <= 2 ^ 64 - 8 ->
  bitset_internal_capacity (bitset_internal_bytes bits) = 8 * ceil8 bits.
Proof.
  intros H. rewrite internal_bytes_ceil by lia.
  unfold bitset_internal_capacity, ceil8. rewrite Z.shiftl_mul_pow2 by lia.
  rewrite wrap_size_small by (Z.div_mod_to_equations; lia).
  change (2 ^ 3) with 8. lia.
Qed.

(** After a granted [bitset_resize] to a size in [1 .. 2^64 - 8] the
    buffer holds [ceil(size / 8)] bytes and the capacity is eight times
    that. *)
Lemma resize_granted s sz fill :
  0 < sz <= 2 ^ 64 - 8 ->
  exists d',
    bitset_resize s sz (Granted fill) =
    (mk_bitset (Some d') (8 * ceil8 sz) sz, to_intmax (size s - sz)) /\
    Z.of_nat (length d') = ceil8 sz /\
    d' = fresh_block (match data s with Some old => old | None => [] end)
           (ceil8 sz) fill.
Proof.
  intros H. unfold bitset_resize. cbn [c_realloc set_data data].
  rewrite internal_capacity_bytes, internal_bytes_ceil by lia.
  eexists. split; [reflexivity|]. split; [|reflexivity].
  apply fresh_block_length. unfold ceil8. Z.div_mod_to_equations. lia.
Qed.

(** C2.  When the reallocation is refused, [bitset_resize] returns 0 and
    leaves [capacity] and [size] as they were, but the [data] field has
    already been overwritten by the result of [realloc]: the bitset no
    longer refers to its old buffer. *)
Theorem resize_refused (s : bitset) (sz : Z) :
  bitset_resize s sz Refused = (mk_bitset None (capacity s) (size s), 0).
Proof. reflexivity. Qed.

(** C6.  For [num = 0] the byte count [bitset_malloc] asks for is [2^61],
    not 0: no bitset is created when the allocator refuses that, and when
    it grants it the buffer holds [2^61] bytes for a capacity of 0. *)
Theorem malloc_zero_bits (clear : Z) (o : alloc_outcome) (f1 f2 : nat -> Z) :
  bitset_internal_bytes 0 = 2 ^ 61 /\
  bitset_malloc 0 clear o Refused = None /\
  exists d,
    bitset_malloc 0 clear (Granted f1) (Granted f2) =
    Some (mk_bitset (Some d) 0 0) /\
    Z.of_nat (length d) = 2 ^ 61.
Proof.
  split; [apply internal_bytes_zero|]. split.
  - unfold bitset_malloc, bitset_internal_alloc, c_malloc, c_calloc.
    destruct o; [reflexivity|]. destruct (clear =? 0); reflexivity.
  - unfold bitset_malloc, bitset_internal_alloc, c_malloc, c_calloc.
    rewrite internal_bytes_zero.
    replace (bitset_internal_capacity (2 ^ 61)) with 0
      by (vm_compute; reflexivity).
    replace (wrap_size (2 ^ 61 * 1)) with (2 ^ 61)
      by (vm_compute; reflexivity).
    replace (2 ^ 61 * 1) with (2 ^ 61) by (vm_compute; reflexivity).
    destruct (clear =? 0); eexists; (split; [reflexivity|]);
      apply fresh_block_length; lia.
Qed.

(** C7.  Growing a one-byte bitset from 8 to 11 bits, the new byte coming
    back from [realloc] as [0xFF]: the range [[8, 11)] lies in one byte that
    is not the first, [bitset_rclear] masks it with a mask shifted by
    [begin = 8] and the new bits stay set. *)
Theorem cresize_leaves_new_bits :
  bitset_cresize (from_bytes [0] 8) 11 (Granted (fun _ => 255)) =
    Some (mk_bitset (Some [0; 255]) 16 11, -3) /\
  bit_at [0; 255] 8 = true /\
  bit_at [0; 255] 9 = true /\
  bit_at [0; 255] 10 = true.
Proof. vm_compute. repeat split; reflexivity. Qed.

(** ** What holds of construction and of [bitset_cresize] *)

Lemma new_granted fill : bitset_new (Granted fill) = Some (mk_bitset None 0 0).
Proof. reflexivity. Qed.

Lemma fresh_block_zeros n : fresh_block [] n (fun _ => 0) = zeros (Z.to_nat n).
Proof.
  apply nth_ext_bytes.
  - unfold fresh_block. rewrite length_map, length_seq, zeros_length.
    reflexivity.
  - intros k Hk. unfold fresh_block in *.
    rewrite length_map, length_seq in Hk.
    rewrite (nth_map_seq (fun k => nth k [] (wrap_uchar 0))) by assumption.
    rewrite nth_zeros. destruct k; reflexivity.
Qed.

(** For [num] in [1 .. 2^64 - 8], a granted [bitset_malloc] allocates
    [ceil(num / 8)] bytes, sets the size to [num] and the capacity to eight
    times the byte count, and with [clear] the buffer is all zero. *)
Lemma malloc_granted num clear f1 f2 :
  0 < num <= 2 ^ 64 - 8 ->
  exists d,
    bitset_malloc num clear (Granted f1) (Granted f2) =
    Some (mk_bitset (Some d) (8 * ceil8 num) num) /\
    Z.of_nat (length d) = ceil8 num /\
    (clear <> 0 -> d = zeros (Z.to_nat (ceil8 num))).
Proof.
  intros H.
  assert (Hc : 0 <= ceil8 num < 2 ^ 64)
    by (unfold ceil8; Z.div_mod_to_equations; lia).
  unfold bitset_malloc, bitset_internal_alloc, c_malloc, c_calloc.
  rewrite internal_capacity_bytes, internal_bytes_ceil by lia.
  rewrite Z.mul_1_r, wrap_size_small by lia.
  destruct (Z.eqb_spec clear 0) as [Hz|Hnz].
  - eexists. split; [reflexivity|]. split; [|contradiction].
    apply fresh_block_length. lia.
  - eexists. split; [reflexivity|]. split.
    + apply fresh_block_length. lia.
    + intros _. apply fresh_block_zeros.
Qed.

(** When the new size is not larger, [bitset_cresize] is [bitset_resize]. *)
Lemma cresize_no_growth s sz o :
  sz <= size s -> bitset_cresize s sz o = Some (bitset_resize s sz o).
Proof.
  intros H. unfold bitset_cresize.
  destruct (bitset_resize s sz o) as [s1 diff].
  destruct (Z.ltb_spec (size s) sz); [lia|reflexivity].
Qed.

(** Growth that [bitset_rclear] handles: the new size is not a multiple
    of 8, and the old and the new size fall in different bytes or the old
    size lies in the first byte. *)
Lemma cresize_growth s d sz fill :
  wf s d -> 0 <= size s <= capacity s -> size s < sz <= 2 ^ 64 - 8 ->
  sz mod 8 <> 0 -> size s / 8 <> sz / 8 \/ size s < 8 ->
  exists d',
    bitset_cresize s sz (Granted fill) =
    Some (mk_bitset (Some d') (8 * ceil8 sz) sz, to_intmax (size s - sz)) /\
    Z.of_nat (length d') = ceil8 sz /\
    (forall i, size s <= i < sz -> bit_at d' i = false) /\
    (forall i, 0 <= i < size s -> bit_at d' i = bit_at d i).
Proof.
  intros Hwf Hsz Hgrow Hmod Hcase. pose proof Hwf as (Hd & Hok & Hcap & Hlt).
  destruct (resize_granted s sz fill) as (d1 & E1 & L1 & F1); [lia|].
  rewrite Hd in F1.
  assert (Hc8 : sz < 8 * ceil8 sz < 2 ^ 64)
    by (unfold ceil8; Z.div_mod_to_equations; lia).
  assert (Hwf1 : wf (mk_bitset (Some d1) (8 * ceil8 sz) sz) d1).
  { repeat split; cbn [data capacity]; try lia.
    subst d1. apply bytes_ok_fresh_block. assumption. }
  destruct (rclear_spec _ d1 (size s) sz Hwf1) as (d2 & E2 & Hwf2 & L2 & B2);
    cbn [capacity]; try lia; auto.
  unfold bitset_cresize. rewrite E1.
  destruct (Z.ltb_spec (size s) sz); [|lia].
  cbn [size]. rewrite E2. cbn [bind fst set_data capacity size].
  exists d2. split; [reflexivity|]. split; [lia|]. split.
  - intros i Hi. rewrite B2 by lia.
    destruct (Z.leb_spec (size s) i), (Z.ltb_spec i sz); cbn [andb]; auto; lia.
  - intros i Hi. rewrite B2 by lia.
    destruct (Z.leb_spec (size s) i), (Z.ltb_spec i sz); cbn [andb]; try lia.
    unfold bit_at. f_equal. subst d1.
    rewrite nth_fresh_block
      by (rewrite Z2Nat.id; unfold ceil8; Z.div_mod_to_equations; lia).
    apply nth_indep. Z.div_mod_to_equations. lia.
Qed.

(** ** The byte after the range *)

Lemma store_length m p v m' : store m p v = Some m' -> length m' = length m.
Proof.
  unfold store. destruct (in_block m p); [|discriminate].
  intros E. injection E as <-. apply set_nth_length.
Qed.

Lemma memset_from_length n : forall m p c m',
  memset_from m p c n = Some m' -> length m' = length m.
Proof.
  induction n as [|n IH]; intros m p c m'; cbn [memset_from].
  - intros E. injection E as <-. reflexivity.
  - destruct (store m p c) as [m1|] eqn:E1; cbn [bind]; [|discriminate].
    intros E. apply IH in E. apply store_length in E1. congruence.
Qed.

Lemma load_outside m p : Z.of_nat (length m) <= p -> load m p = None.
Proof.
  intros H. unfold load, in_block.
  destruct (Z.ltb_spec p (Z.of_nat (length m))); [lia|].
  rewrite andb_false_r. reflexivity.
Qed.

(** With [end = capacity] the byte [bitset_byte_at (end)] is the one after
    the buffer, and [bitset_rclear] reads and writes it on both branches. *)
Lemma rclear_at_capacity s d begin :
  wf s d -> 0 <= begin <= capacity s ->
  bitset_rclear s begin (capacity s) = None.
Proof.
  intros (Hd & Hok & Hcap & Hlt) Hb.
  assert (He : capacity s / 8 = Z.of_nat (length d))
    by (Z.div_mod_to_equations; lia).
  unfold bitset_rclear, bitset_byte_at. rewrite Hd. cbn [bind]. rewrite He.
  destruct (Z.eqb_spec (begin / 8) (Z.of_nat (length d))) as [E|E].
  - rewrite E, load_outside by lia. reflexivity.
  - match goal with
    | |- context [bind (if ?c then Some d else ?m) _] =>
        destruct (if c then Some d else m) as [d1|] eqn:E1
    end; cbn [bind]; [|reflexivity].
    assert (L1 : length d1 = length d).
    { destruct (_ =? 0) in E1; [injection E1 as <-; reflexivity|].
      unfold memset in E1. eapply memset_from_length; eassumption. }
    match goal with
    | |- context [bind (if ?c then Some d1 else ?m) _] =>
        destruct (if c then Some d1 else m) as [d2|] eqn:E2
    end; cbn [bind]; [|reflexivity].
    assert (L2 : length d2 = length d).
    { destruct (_ =? 0) in E2; [injection E2 as <-; assumption|].
      destruct (load d1 (begin / 8)); cbn [bind] in E2; [|discriminate].
      apply store_length in E2. congruence. }
    rewrite load_outside by lia. reflexivity.
Qed.

(** Growth to a multiple of 8 runs into that: the new size is the new
    capacity. *)
Lemma cresize_to_byte_boundary :
  bitset_cresize (from_bytes [0] 8) 16 (Granted (fun _ => 255)) = None.
Proof. vm_compute. reflexivity. Qed.

(** * Further properties of the operations *)

(** ** Single bits *)

Lemma set_data_twice s x y : set_data (set_data s x) y = set_data s y.
Proof. reflexivity. Qed.

Lemma set_nth_same n l :
  (n < length l)%nat -> set_nth n (nth n l 0) l = l.
Proof.
  revert n; induction l as [|x t IH]; intros [|n] H; simpl in *;
    try lia; auto.
  rewrite IH by lia. reflexivity.
Qed.

Lemma pow2_mod8_pos index : 0 <= index -> 0 < 2 ^ (index mod 8).
Proof.
  intros H. apply Z.pow_pos_nonneg; [lia|apply Z.mod_pos_bound; lia].
Qed.

(** X1.  [bitset_get] does not return 0 or 1: for an index below the
    capacity it returns the bit still in place, [1 << (index mod 8)], when
    the bit is set, and 0 when it is clear. *)
Theorem get_returns_bit_in_place (s : bitset) (d : list Z) (index : Z) :
  wf s d -> 0 <= index < capacity s ->
  bitset_get s index =
  Some (if bit_at d index then 2 ^ (index mod 8) else 0).
Proof. intros Hwf Hi. apply get_spec; assumption. Qed.

Lemma get_returns_bit_in_place_witness :
  bitset_get (from_bytes [255; 255] 16) 13 =
  Some (if bit_at [255; 255] 13 then 2 ^ (13 mod 8) else 0).
Proof.
  apply (get_returns_bit_in_place (from_bytes [255; 255] 16) [255; 255] 13).
  - wf_bytes.
  - simpl. lia.
Defined.

(** X2.  Neither [bitset_get] nor [bitset_set] checks its index: at an
    index at or beyond the capacity both go through a byte outside the
    buffer. *)
Theorem get_set_beyond_capacity (s : bitset) (d : list Z) (index state : Z) :
  wf s d -> capacity s <= index ->
  bitset_get s index = None /\ bitset_set s index state = None.
Proof.
  intros (Hd & Hok & Hcap & Hlt) Hi.
  assert (Hb : Z.of_nat (length d) <= bitset_byte_at index)
    by (unfold bitset_byte_at; Z.div_mod_to_equations; lia).
  unfold bitset_get, bitset_set. rewrite Hd. cbn [bind].
  rewrite load_outside by assumption. split; reflexivity.
Qed.

Lemma get_set_beyond_capacity_witness :
  bitset_get (from_bytes [255; 255] 16) 16 = None /\
  bitset_set (from_bytes [255; 255] 16) 16 1 = None.
Proof.
  apply (get_set_beyond_capacity (from_bytes [255; 255] 16) [255; 255] 16 1).
  - wf_bytes.
  - simpl. lia.
Defined.

(** X3.  Setting a bit twice: the second state is the one that stays, the
    result is the bitset that the second [bitset_set] alone gives. *)
Theorem set_twice_last_wins (s : bitset) (d : list Z) (index a b : Z) :
  wf s d -> 0 <= index < capacity s ->
  exists s1,
    bitset_set s index a = Some s1 /\
    bitset_set s1 index b = bitset_set s index b.
Proof.
  intros Hwf Hi.
  destruct (set_spec s d index a Hwf Hi) as (d1 & E1 & Hwf1 & L1 & _ & B1).
  destruct (set_spec s d index b Hwf Hi) as (d3 & E3 & Hwf3 & L3 & _ & B3).
  destruct (set_spec (set_data s (Some d1)) d1 index b Hwf1 Hi)
    as (d2 & E2 & Hwf2 & L2 & _ & B2).
  exists (set_data s (Some d1)). split; [assumption|].
  rewrite E2, E3, set_data_twice. replace d2 with d3; [reflexivity|].
  destruct Hwf2 as (_ & Ok2 & _). destruct Hwf3 as (_ & Ok3 & _).
  apply bits_ext; auto; [lia|].
  intros i Hi0. rewrite B3, B2, B1 by assumption.
  destruct (i =? index); reflexivity.
Qed.

Lemma set_twice_last_wins_witness :
  exists s1,
    bitset_set (from_bytes [0; 0] 16) 9 1 = Some s1 /\
    bitset_set s1 9 0 = bitset_set (from_bytes [0; 0] 16) 9 0.
Proof.
  apply (set_twice_last_wins (from_bytes [0; 0] 16) [0; 0] 9 1 0).
  - wf_bytes.
  - simpl. lia.
Defined.

(** X4.  [bitset_set] at two different indices can be done in either
    order: both orders give the same bitset. *)
Theorem set_commutes (s : bitset) (d : list Z) (i j a b : Z) :
  wf s d -> 0 <= i < capacity s -> 0 <= j < capacity s -> i <> j ->
  exists s1 s2 s',
    bitset_set s i a = Some s1 /\ bitset_set s1 j b = Some s' /\
    bitset_set s j b = Some s2 /\ bitset_set s2 i a = Some s'.
Proof.
  intros Hwf Hi Hj Hne.
  destruct (set_spec s d i a Hwf Hi) as (d1 & E1 & Hwf1 & L1 & _ & B1).
  destruct (set_spec s d j b Hwf Hj) as (d2 & E2 & Hwf2 & L2 & _ & B2).
  destruct (set_spec (set_data s (Some d1)) d1 j b Hwf1 Hj)
    as (d3 & E3 & Hwf3 & L3 & _ & B3).
  destruct (set_spec (set_data s (Some d2)) d2 i a Hwf2 Hi)
    as (d4 & E4 & Hwf4 & L4 & _ & B4).
  exists (set_data s (Some d1)), (set_data s (Some d2)), (set_data s (Some d3)).
  split; [assumption|]. split; [rewrite E3; reflexivity|].
  split; [assumption|].
  rewrite E4, set_data_twice. replace d4 with d3; [reflexivity|].
  destruct Hwf3 as (_ & Ok3 & _). destruct Hwf4 as (_ & Ok4 & _).
  apply bits_ext; auto; [lia|].
  intros k Hk. rewrite B3, B4, B1, B2 by assumption.
  destruct (Z.eqb_spec k i), (Z.eqb_spec k j); try reflexivity; lia.
Qed.

Lemma set_commutes_witness :
  exists s1 s2 s',
    bitset_set (from_bytes [0; 255] 16) 3 1 = Some s1 /\
    bitset_set s1 12 0 = Some s' /\
    bitset_set (from_bytes [0; 255] 16) 12 0 = Some s2 /\
    bitset_set s2 3 1 = Some s'.
Proof.
  apply (set_commutes (from_bytes [0; 255] 16) [0; 255] 3 12 1 0).
  - wf_bytes.
  - simpl. lia.
  - simpl. lia.
  - lia.
Defined.

(** X5.  Writing back what [bitset_get] reports changes nothing: when the
    state given to [bitset_set] is non-zero exactly when [bitset_get] at
    that index is, the bitset that comes back is the one that went in. *)
Theorem set_to_current_state (s : bitset) (d : list Z) (index state r : Z) :
  wf s d -> 0 <= index < capacity s ->
  bitset_get s index = Some r -> (state <> 0 <-> r <> 0) ->
  bitset_set s index state = Some s.
Proof.
  intros Hwf Hi Hget Hiff. pose proof Hwf as (Hd & Hok & _).
  rewrite (get_spec s d) in Hget by assumption. injection Hget as Hr.
  destruct (set_spec s d index state Hwf Hi) as (d' & E & Hwf' & L & _ & B).
  rewrite E. replace d' with d; [rewrite set_data_same by assumption; reflexivity|].
  destruct Hwf' as (_ & Ok' & _).
  apply bits_ext; auto. intros i Hi0. rewrite B by assumption.
  destruct (Z.eqb_spec i index) as [->|]; [|reflexivity].
  pose proof (pow2_mod8_pos index) as Hp.
  destruct (bit_at d index), (Z.eqb_spec state 0); simpl; try reflexivity;
    exfalso; lia.
Qed.

Lemma set_to_current_state_witness :
  bitset_set (from_bytes [0; 255] 16) 12 7 = Some (from_bytes [0; 255] 16).
Proof.
  apply (set_to_current_state (from_bytes [0; 255] 16) [0; 255] 12 7 16).
  - wf_bytes.
  - simpl. lia.
  - vm_compute. reflexivity.
  - split; intros; lia.
Defined.

(** ** Clearing *)

Lemma clear_spec s d :
  wf s d ->
  bitset_clear s = Some (set_data s (Some (zeros (length d))), size s).
Proof.
  intros (Hd & Hok & Hcap & Hlt).
  assert (Hb : bitset_bytes s = Z.of_nat (length d))
    by (unfold bitset_bytes; Z.div_mod_to_equations; lia).
  unfold bitset_clear, memset_at. rewrite Hd, Hb.
  destruct (memset_spec d 0 (Z.of_nat (length d))) as (m' & E & L & N);
    try lia.
  rewrite E. cbn [bind]. replace m' with (zeros (length d)); [reflexivity|].
  apply nth_ext_bytes; [rewrite zeros_length; lia|].
  intros k Hk. rewrite zeros_length in Hk. rewrite nth_zeros, N.
  destruct (Z.leb_spec 0 (Z.of_nat k)),
           (Z.ltb_spec (Z.of_nat k) (0 + Z.of_nat (length d)));
    cbn [andb]; try reflexivity; lia.
Qed.

Lemma wf_zeros s d : wf s d -> wf (set_data s (Some (zeros (length d)))) (zeros (length d)).
Proof.
  intros Hwf. eapply wf_set_data; eauto using bytes_ok_zeros, zeros_length.
Qed.

(** X6.  [bitset_clear] zeroes every bit up to the capacity, not only the
    [size] bits it reports: it returns [size], leaves [size] and
    [capacity] as they are, and afterwards [bitset_get] gives 0 at every
    index below the capacity. *)
Theorem clear_zeroes_to_capacity (s : bitset) (d : list Z) :
  wf s d ->
  exists s',
    bitset_clear s = Some (s', size s) /\
    size s' = size s /\ capacity s' = capacity s /\
    data s' = Some (zeros (length d)) /\
    forall index, 0 <= index < capacity s -> bitset_get s' index = Some 0.
Proof.
  intros Hwf. exists (set_data s (Some (zeros (length d)))).
  split; [apply clear_spec; assumption|].
  repeat split. intros index Hi.
  rewrite (get_spec _ (zeros (length d))) by (auto using wf_zeros).
  rewrite bit_at_zeros. reflexivity.
Qed.

Lemma clear_zeroes_to_capacity_witness :
  exists s',
    bitset_clear (from_bytes [255; 255] 11) = Some (s', 11) /\
    size s' = 11 /\ capacity s' = 16 /\
    data s' = Some (zeros (length [255; 255])) /\
    forall index, 0 <= index < 16 -> bitset_get s' index = Some 0.
Proof.
  apply (clear_zeroes_to_capacity (from_bytes [255; 255] 11) [255; 255]).
  wf_bytes.
Defined.

(** X7.  [bitset_rclear (0, size)] against [bitset_clear], for a size
    below the capacity: both succeed and return [size] and both leave the
    bits below [size] at 0; the bits from [size] up to the capacity keep
    their value under [bitset_rclear] and are zeroed by [bitset_clear]. *)
Theorem rclear_all_against_clear (s : bitset) (d : list Z) :
  wf s d -> 0 <= size s < capacity s ->
  exists d1 d2,
    bitset_rclear s 0 (size s) = Some (set_data s (Some d1), size s) /\
    bitset_clear s = Some (set_data s (Some d2), size s) /\
    (forall i, 0 <= i < size s -> bit_at d1 i = false /\ bit_at d2 i = false) /\
    (forall i, size s <= i ->
               bit_at d1 i = bit_at d i /\ bit_at d2 i = false).
Proof.
  intros Hwf Hsz.
  destruct (rclear_spec s d 0 (size s)) as (d1 & E & _ & _ & B);
    auto; try lia.
  exists d1, (zeros (length d)).
  split; [rewrite E; f_equal; f_equal; lia|].
  split; [apply clear_spec; assumption|].
  split; intros i Hi; rewrite B, bit_at_zeros by lia;
    destruct (Z.leb_spec 0 i), (Z.ltb_spec i (size s)); cbn [andb];
    split; try reflexivity; lia.
Qed.

Lemma rclear_all_against_clear_witness :
  exists d1 d2,
    bitset_rclear (from_bytes [255; 255] 11) 0 11 =
    Some (set_data (from_bytes [255; 255] 11) (Some d1), 11) /\
    bitset_clear (from_bytes [255; 255] 11) =
    Some (set_data (from_bytes [255; 255] 11) (Some d2), 11) /\
    (forall i, 0 <= i < 11 -> bit_at d1 i = false /\ bit_at d2 i = false) /\
    (forall i, 11 <= i ->
               bit_at d1 i = bit_at [255; 255] i /\ bit_at d2 i = false).
Proof.
  apply (rclear_all_against_clear (from_bytes [255; 255] 11) [255; 255]).
  - wf_bytes.
  - simpl. lia.
Defined.

(** X8.  [bitset_nclear (index, n)] clears the [n] bits from [index] on
    when the range ends before the capacity and either crosses into
    another byte or starts in the first byte: it returns [n], the bits
    [index .. index + n - 1] are 0 and every other bit keeps its value. *)
Theorem nclear_range (s : bitset) (d : list Z) (index n : Z) :
  wf s d -> 0 <= index -> 0 <= n -> index + n < capacity s ->
  index / 8 <> (index + n) / 8 \/ index < 8 ->
  exists d',
    bitset_nclear s index n = Some (set_data s (Some d'), n) /\
    (forall i, index <= i < index + n -> bit_at d' i = false) /\
    (forall i, 0 <= i -> ~ (index <= i < index + n) ->
               bit_at d' i = bit_at d i).
Proof.
  intros Hwf Hi Hn Hfit Hcase. pose proof Hwf as (_ & _ & _ & Hlt).
  destruct (rclear_spec s d index (index + n)) as (d' & E & _ & _ & B);
    auto; try lia.
  exists d'. unfold bitset_nclear. rewrite wrap_size_small by lia.
  split; [rewrite E; f_equal; f_equal; lia|].
  split; intros i; intros; rewrite B by lia;
    destruct (Z.leb_spec index i), (Z.ltb_spec i (index + n)); cbn [andb];
    try reflexivity; lia.
Qed.

Lemma nclear_range_witness :
  exists d',
    bitset_nclear (from_bytes [255; 255; 255] 24) 5 9 =
    Some (set_data (from_bytes [255; 255; 255] 24) (Some d'), 9) /\
    (forall i, 5 <= i < 5 + 9 -> bit_at d' i = false) /\
    (forall i, 0 <= i -> ~ (5 <= i < 5 + 9) ->
               bit_at d' i = bit_at [255; 255; 255] i).
Proof.
  apply (nclear_range (from_bytes [255; 255; 255] 24) [255; 255; 255] 5 9).
  - wf_bytes.
  - lia.
  - lia.
  - simpl. lia.
  - left. vm_compute. discriminate.
Defined.

(** X9.  Clearing up to the last bit is out of bounds: when
    [index + n] is the capacity, [bitset_nclear] (through
    [bitset_rclear]) reads and writes the byte after the buffer. *)
Theorem nclear_up_to_capacity (s : bitset) (d : list Z) (index n : Z) :
  wf s d -> 0 <= index -> 0 <= n -> index + n = capacity s ->
  bitset_nclear s index n = None.
Proof.
  intros Hwf Hi Hn Hend. pose proof Hwf as (_ & _ & _ & Hlt).
  unfold bitset_nclear. rewrite wrap_size_small, Hend by lia.
  apply (rclear_at_capacity s d); [assumption|lia].
Qed.

Lemma nclear_up_to_capacity_witness :
  bitset_nclear (from_bytes [255; 255] 16) 3 13 = None.
Proof.
  apply (nclear_up_to_capacity (from_bytes [255; 255] 16) [255; 255] 3 13).
  - wf_bytes.
  - lia.
  - lia.
  - reflexivity.
Defined.

Lemma same_byte_mask_high b begin end_ i :
  8 <= begin <= end_ -> end_ < 2 ^ 64 -> 0 <= i < 8 ->
  Z.testbit (wrap_uchar (Z.land b (same_byte_mask begin end_))) i =
  Z.testbit b i.
Proof.
  intros Hb He Hi. unfold same_byte_mask.
  rewrite wrap_size_small by lia. bits.
Qed.

(** X10.  In a byte other than the first, [bitset_rclear] on a range
    inside that one byte clears nothing: for [8 <= begin <= end < 32] in
    the same byte and below the capacity it returns [end - begin] and the
    bitset is exactly as before. *)
Theorem rclear_inside_later_byte (s : bitset) (d : list Z) (begin end_ : Z) :
  wf s d -> 8 <= begin <= end_ -> end_ < 32 -> end_ < capacity s ->
  begin / 8 = end_ / 8 ->
  bitset_rclear s begin end_ = Some (s, end_ - begin).
Proof.
  intros Hwf Hb H32 He Hsame. pose proof Hwf as (Hd & Hok & Hcap & Hlt).
  rewrite (rclear_same_byte s d) by (auto; lia).
  assert (Hin : 0 <= begin / 8 < Z.of_nat (length d))
    by (Z.div_mod_to_equations; lia).
  replace (wrap_uchar (Z.land (nth (Z.to_nat (begin / 8)) d 0)
                         (same_byte_mask begin end_)))
    with (nth (Z.to_nat (begin / 8)) d 0).
  - rewrite set_nth_same by lia. rewrite set_data_same by assumption.
    reflexivity.
  - apply byte_bits_inj;
      auto using wrap_uchar_byte, bytes_ok_nth.
    intros i Hi. rewrite same_byte_mask_high by lia. reflexivity.
Qed.

Lemma rclear_inside_later_byte_witness :
  bitset_rclear (from_bytes [255; 255; 255] 24) 17 22 =
  Some (from_bytes [255; 255; 255] 24, 22 - 17).
Proof.
  apply (rclear_inside_later_byte (from_bytes [255; 255; 255] 24)
           [255; 255; 255] 17 22).
  - wf_bytes.
  - lia.
  - lia.
  - simpl. lia.
  - reflexivity.
Defined.

(** ** Bulk copies *)



(** X12.  [bitset_write] overwrites: a second write over the same range
    leaves the bitset that the second write alone gives, whatever the
    first one wrote. *)
Theorem write_twice_last_wins (s : bitset) (d : list Z) (index : Z)
    (seq1 seq2 : list Z) (count : Z) :
  wf s d -> 0 <= index -> 0 <= count -> index + count <= capacity s ->
  ceil8 count <= Z.of_nat (length seq1) ->
  ceil8 count <= Z.of_nat (length seq2) ->
  exists s1,
    bitset_write s index seq1 count = Some (s1, count) /\
    bitset_write s1 index seq2 count = bitset_write s index seq2 count.
Proof.
  intros Hwf Hi Hc Hfit H1 H2.
  destruct (write_spec s d index seq1 count) as (d1 & E1 & Hwf1 & L1 & B1); auto.
  destruct (write_spec s d index seq2 count) as (d3 & E3 & Hwf3 & L3 & B3); auto.
  destruct (write_spec (set_data s (Some d1)) d1 index seq2 count)
    as (d2 & E2 & Hwf2 & L2 & B2); auto.
  exists (set_data s (Some d1)). split; [assumption|].
  rewrite E2, E3, set_data_twice. replace d2 with d3; [reflexivity|].
  destruct Hwf2 as (_ & Ok2 & _). destruct Hwf3 as (_ & Ok3 & _).
  apply bits_ext; auto; [lia|].
  intros i Hi0. rewrite B3, B2, B1 by assumption.
  destruct ((index <=? i) && (i <? index + count)); reflexivity.
Qed.

Lemma write_twice_last_wins_witness :
  exists s1,
    bitset_write (from_bytes [0; 0; 0] 24) 3 [255; 255] 12 = Some (s1, 12) /\
    bitset_write s1 3 [179; 15] 12 =
    bitset_write (from_bytes [0; 0; 0] 24) 3 [179; 15] 12.
Proof.
  apply (write_twice_last_wins (from_bytes [0; 0; 0] 24) [0; 0; 0] 3
           [255; 255] [179; 15] 12).
  - wf_bytes.
  - lia.
  - lia.
  - simpl. lia.
  - vm_compute. discriminate.
  - vm_compute. discriminate.
Defined.

Lemma nth_skipn_add (l : list Z) k n : nth n (skipn k l) 0 = nth (k + n) l 0.
Proof.
  revert l; induction k as [|k IH]; intros l; [reflexivity|].
  destruct l as [|x t]; simpl; [destruct n; reflexivity|apply IH].
Qed.

Lemma bit_at_skipn l k j :
  0 <= j -> bit_at (skipn k l) j = bit_at l (8 * Z.of_nat k + j).
Proof.
  intros Hj. unfold bit_at. rewrite nth_skipn_add.
  assert (Hq : 0 <= j / 8) by (Z.div_mod_to_equations; lia).
  replace ((8 * Z.of_nat k + j) / 8) with (Z.of_nat k + j / 8)
    by (Z.div_mod_to_equations; lia).
  replace ((8 * Z.of_nat k + j) mod 8) with (j mod 8)
    by (Z.div_mod_to_equations; lia).
  rewrite Z2Nat.inj_add, Nat2Z.id by lia. reflexivity.
Qed.

(** X13.  A write can be cut at a byte of the external sequence: writing
    the first [k] bytes and then the remaining [m] bits, taken from byte
    [k] of the sequence on and put [8 * k] bits further, gives the same
    bitset as one write of [8 * k + m] bits. *)
Theorem write_in_two_parts (s : bitset) (d : list Z) (index : Z)
    (seq : list Z) (k : nat) (m : Z) :
  wf s d -> 0 <= index -> 0 <= m ->
  index + (8 * Z.of_nat k + m) <= capacity s ->
  ceil8 (8 * Z.of_nat k + m) <= Z.of_nat (length seq) ->
  exists s1 s2,
    bitset_write s index seq (8 * Z.of_nat k) = Some (s1, 8 * Z.of_nat k) /\
    bitset_write s1 (index + 8 * Z.of_nat k) (skipn k seq) m = Some (s2, m) /\
    bitset_write s index seq (8 * Z.of_nat k + m) =
    Some (s2, 8 * Z.of_nat k + m).
Proof.
  intros Hwf Hi Hm Hfit Hseq.
  assert (Hc : ceil8 (8 * Z.of_nat k + m) = Z.of_nat k + ceil8 m)
    by (unfold ceil8; Z.div_mod_to_equations; lia).
  assert (Hc0 : ceil8 (8 * Z.of_nat k) = Z.of_nat k)
    by (unfold ceil8; Z.div_mod_to_equations; lia).
  assert (Hcm : 0 <= ceil8 m) by (unfold ceil8; Z.div_mod_to_equations; lia).
  pose proof Hwf as (_ & _ & _ & Hlt).
  destruct (write_spec s d index seq (8 * Z.of_nat k))
    as (d1 & E1 & Hwf1 & L1 & B1); auto; try lia.
  destruct (write_spec (set_data s (Some d1)) d1 (index + 8 * Z.of_nat k)
              (skipn k seq) m) as (d2 & E2 & Hwf2 & L2 & B2);
    auto; try (cbn [capacity set_data]; lia).
  { rewrite length_skipn. lia. }
  destruct (write_spec s d index seq (8 * Z.of_nat k + m))
    as (d3 & E3 & Hwf3 & L3 & B3); auto; try lia.
  exists (set_data s (Some d1)), (set_data s (Some d2)).
  split; [assumption|]. split; [rewrite E2; reflexivity|].
  rewrite E3. replace d3 with d2; [reflexivity|].
  destruct Hwf2 as (_ & Ok2 & _). destruct Hwf3 as (_ & Ok3 & _).
  apply bits_ext; auto; [lia|].
  intros i Hi0. rewrite B3, B2, B1 by assumption.
  destruct (Z.leb_spec (index + 8 * Z.of_nat k) i),
           (Z.ltb_spec i (index + 8 * Z.of_nat k + m)),
           (Z.leb_spec index i),
           (Z.ltb_spec i (index + 8 * Z.of_nat k)),
           (Z.ltb_spec i (index + (8 * Z.of_nat k + m)));
    cbn [andb]; try reflexivity; try lia.
  rewrite bit_at_skipn by lia. f_equal. lia.
Qed.

Lemma write_in_two_parts_witness :
  exists s1 s2,
    bitset_write (from_bytes [0; 0; 0] 24) 3 [179; 15; 5] (8 * Z.of_nat 2) =
    Some (s1, 8 * Z.of_nat 2) /\
    bitset_write s1 (3 + 8 * Z.of_nat 2) (skipn 2 [179; 15; 5]) 4 =
    Some (s2, 4) /\
    bitset_write (from_bytes [0; 0; 0] 24) 3 [179; 15; 5]
      (8 * Z.of_nat 2 + 4) = Some (s2, 8 * Z.of_nat 2 + 4).
Proof.
  apply (write_in_two_parts (from_bytes [0; 0; 0] 24) [0; 0; 0] 3
           [179; 15; 5] 2 4).
  - wf_bytes.
  - lia.
  - lia.
  - simpl. lia.
  - vm_compute. discriminate.
Defined.

(** X14.  Reading the same range a second time into the same destination
    changes nothing more: the destination after the first [bitset_read]
    is a fixed point of the second. *)
Theorem read_twice_same (s : bitset) (d : list Z) (index : Z)
    (dest : list Z) (count : Z) :
  wf s d -> 0 <= index -> 0 <= count -> index + count <= capacity s ->
  ceil8 count <= Z.of_nat (length dest) -> bytes_ok dest ->
  exists dest',
    bitset_read s index dest count = Some (dest', count) /\
    bitset_read s index dest' count = Some (dest', count).
Proof.
  intros Hwf Hi Hc Hfit Hn Hok.
  destruct (read_spec s d index dest count) as (d1 & E1 & L1 & Ok1 & B1); auto.
  destruct (read_spec s d index d1 count) as (d2 & E2 & L2 & Ok2 & B2);
    auto; try lia.
  exists d1. split; [assumption|]. rewrite E2.
  replace d2 with d1; [reflexivity|].
  apply bits_ext; auto; try lia.
  intros j Hj. rewrite B2, B1 by assumption.
  destruct (bit_at dest j), ((j <? count) && bit_at d (index + j));
    reflexivity.
Qed.

Lemma read_twice_same_witness :
  exists dest',
    bitset_read (from_bytes [152; 125; 0] 24) 3 [64; 1] 12 =
    Some (dest', 12) /\
    bitset_read (from_bytes [152; 125; 0] 24) 3 dest' 12 = Some (dest', 12).
Proof.
  apply (read_twice_same (from_bytes [152; 125; 0] 24) [152; 125; 0] 3
           [64; 1] 12).
  - wf_bytes.
  - lia.
  - lia.
  - simpl. lia.
  - vm_compute. discriminate.
  - wf_bytes.
Defined.

(** X15.  What [bitset_write] stores is what [bitset_get] sees: after a
    write of [count] bits at [index], [bitset_get (index + j)] is non-zero
    exactly when bit [j] of the external sequence is set, for every
    [j < count]. *)
Theorem write_then_get (s : bitset) (d : list Z) (index : Z) (seq : list Z)
    (count : Z) :
  wf s d -> 0 <= index -> 0 <= count -> index + count <= capacity s ->
  ceil8 count <= Z.of_nat (length seq) ->
  exists s',
    bitset_write s index seq count = Some (s', count) /\
    forall j, 0 <= j < count ->
      exists r, bitset_get s' (index + j) = Some r /\
                (r <> 0 <-> bit_at seq j = true).
Proof.
  intros Hwf Hi Hc Hfit Hseq.
  destruct (write_spec s d index seq count) as (d' & E & Hwf' & L & B); auto.
  exists (set_data s (Some d')). split; [assumption|].
  intros j Hj. rewrite (get_spec _ d') by (auto; cbn [capacity set_data]; lia).
  eexists. split; [reflexivity|]. rewrite B by lia.
  destruct (Z.leb_spec index (index + j)),
           (Z.ltb_spec (index + j) (index + count)); cbn [andb]; try lia.
  replace (index + j - index) with j by lia.
  pose proof (pow2_mod8_pos (index + j)) as Hp.
  destruct (bit_at seq j); split; intros; try lia; try discriminate.
Qed.

Lemma write_then_get_witness :
  exists s',
    bitset_write (from_bytes [0; 0; 0] 24) 3 [179; 15] 12 = Some (s', 12) /\
    forall j, 0 <= j < 12 ->
      exists r, bitset_get s' (3 + j) = Some r /\
                (r <> 0 <-> bit_at [179; 15] j = true).
Proof.
  apply (write_then_get (from_bytes [0; 0; 0] 24) [0; 0; 0] 3 [179; 15] 12).
  - wf_bytes.
  - lia.
  - lia.
  - simpl. lia.
  - vm_compute. discriminate.
Defined.

(** X16.  What [bitset_read] extracts is what [bitset_get] sees: after a
    read of [count] bits at [index] into a zeroed buffer, bit [j] of the
    buffer is set exactly when [bitset_get (index + j)] is non-zero, for
    every [j < count]. *)
Theorem read_agrees_with_get (s : bitset) (d : list Z) (index count : Z)
    (n : nat) :
  wf s d -> 0 <= index -> 0 <= count -> index + count <= capacity s ->
  ceil8 count <= Z.of_nat n ->
  exists buf,
    bitset_read s index (zeros n) count = Some (buf, count) /\
    forall j, 0 <= j < count ->
      exists r, bitset_get s (index + j) = Some r /\
                (r <> 0 <-> bit_at buf j = true).
Proof.
  intros Hwf Hi Hc Hfit Hn.
  exists (bits_of d index count n). split; [apply read_zeros; auto|].
  intros j Hj. rewrite (get_spec s d) by (auto; lia).
  eexists. split; [reflexivity|]. rewrite bit_at_bits_of by lia.
  destruct (Z.ltb_spec (j / 8) (Z.of_nat n)), (Z.ltb_spec j count);
    cbn [andb]; try lia;
    [|exfalso; unfold ceil8 in Hn; Z.div_mod_to_equations; lia].
  pose proof (pow2_mod8_pos (index + j)) as Hp.
  destruct (bit_at d (index + j)); split; intros; try lia; try discriminate.
Qed.

Lemma read_agrees_with_get_witness :
  exists buf,
    bitset_read (from_bytes [152; 125; 0] 24) 3 (zeros 2) 12 =
    Some (buf, 12) /\
    forall j, 0 <= j < 12 ->
      exists r, bitset_get (from_bytes [152; 125; 0] 24) (3 + j) = Some r /\
                (r <> 0 <-> bit_at buf j = true).
Proof.
  apply (read_agrees_with_get (from_bytes [152; 125; 0] 24) [152; 125; 0]
           3 12 2).
  - wf_bytes.
  - lia.
  - lia.
  - simpl. lia.
  - vm_compute. discriminate.
Defined.

(** ** Allocation and resizing *)

Lemma to_intmax_small z : - 2 ^ 63 <= z < 2 ^ 63 -> to_intmax z = z.
Proof.
  intros H. unfold to_intmax, wrap_size.
  destruct (Z.lt_ge_cases z 0) as [Hn|Hp].
  - replace (z mod 2 ^ 64) with (z + 2 ^ 64)
      by (Z.div_mod_to_equations; lia).
    destruct (Z.ltb_spec (z + 2 ^ 64) (2 ^ 63)); lia.
  - rewrite Z.mod_small by lia.
    destruct (Z.ltb_spec z (2 ^ 63)); lia.
Qed.

(** X17.  The value [bitset_resize] returns when the reallocation is
    granted is the old size minus the new one: positive when the bitset
    shrinks, negative when it grows, 0 when the size stays (the value a
    refused reallocation returns too). *)
Theorem resize_returns_old_minus_new (s : bitset) (sz : Z) (fill : nat -> Z) :
  0 <= size s < 2 ^ 63 -> 0 <= sz < 2 ^ 63 ->
  snd (bitset_resize s sz (Granted fill)) = size s - sz.
Proof.
  intros Hs Hz. unfold bitset_resize. cbn [c_realloc set_data data snd].
  apply to_intmax_small. lia.
Qed.

Lemma resize_returns_old_minus_new_witness :
  snd (bitset_resize (from_bytes [1; 2] 16) 30 (Granted (fun _ => 0))) =
  size (from_bytes [1; 2] 16) - 30.
Proof.
  apply (resize_returns_old_minus_new (from_bytes [1; 2] 16) 30 (fun _ => 0)).
  - simpl. lia.
  - lia.
Defined.

(** X18.  A granted [bitset_resize] to a size in [1 .. 2^64 - 8] keeps the
    bytes that the old and the new buffer have in common: the new buffer
    has [ceil(size / 8)] bytes, the capacity is eight times that, and every
    bit below both the old and the new capacity has its prior value. *)
Theorem resize_keeps_common_bits (s : bitset) (d : list Z) (sz : Z)
    (fill : nat -> Z) :
  data s = Some d -> 0 < sz <= 2 ^ 64 - 8 ->
  exists d',
    fst (bitset_resize s sz (Granted fill)) =
    mk_bitset (Some d') (8 * ceil8 sz) sz /\
    Z.of_nat (length d') = ceil8 sz /\
    forall i, 0 <= i < 8 * Z.of_nat (length d) -> i < 8 * ceil8 sz ->
              bit_at d' i = bit_at d i.
Proof.
  intros Hd Hsz.
  destruct (resize_granted s sz fill Hsz) as (d' & E & L & F).
  rewrite Hd in F. exists d'. rewrite E.
  split; [reflexivity|]. split; [assumption|].
  intros i Hi Hi'. unfold bit_at. f_equal. subst d'.
  rewrite nth_fresh_block
    by (rewrite Z2Nat.id; Z.div_mod_to_equations; lia).
  apply nth_indep. Z.div_mod_to_equations. lia.
Qed.

Lemma resize_keeps_common_bits_witness :
  exists d',
    fst (bitset_resize (from_bytes [1; 2] 16) 30 (Granted (fun _ => 255))) =
    mk_bitset (Some d') (8 * ceil8 30) 30 /\
    Z.of_nat (length d') = ceil8 30 /\
    forall i, 0 <= i < 8 * Z.of_nat (length [1; 2]) -> i < 8 * ceil8 30 ->
              bit_at d' i = bit_at [1; 2] i.
Proof.
  apply (resize_keeps_common_bits (from_bytes [1; 2] 16) [1; 2] 30
           (fun _ => 255)).
  - reflexivity.
  - lia.
Defined.

(** X19.  Growing and shrinking back: for a bitset whose capacity is
    [8 * ceil(size / 8)], a granted [bitset_resize] to a larger size
    followed by a granted [bitset_resize] to the old size gives back the
    bitset that went in, buffer, capacity and size. *)
Theorem resize_grow_then_shrink_back (s : bitset) (d : list Z) (sz : Z)
    (f1 f2 : nat -> Z) :
  wf s d -> capacity s = 8 * ceil8 (size s) ->
  0 < size s <= sz -> sz <= 2 ^ 64 - 8 ->
  fst (bitset_resize (fst (bitset_resize s sz (Granted f1))) (size s)
         (Granted f2)) = s.
Proof.
  intros (Hd & Hok & Hcap & Hlt) Hinv Hs Hz.
  destruct (resize_granted s sz f1) as (d1 & E1 & L1 & F1); [lia|].
  rewrite E1. cbn [fst]. rewrite Hd in F1.
  destruct (resize_granted (mk_bitset (Some d1) (8 * ceil8 sz) sz) (size s) f2)
    as (d2 & E2 & L2 & F2); [lia|].
  rewrite E2. cbn [fst data] in *.
  assert (Hmono : ceil8 (size s) <= ceil8 sz)
    by (unfold ceil8; Z.div_mod_to_equations; lia).
  replace d2 with d.
  - destruct s as [dt c z]. cbn [data capacity size] in *. subst dt.
    rewrite Hinv. reflexivity.
  - apply nth_ext_bytes; [lia|]. intros k Hk. subst d2.
    rewrite nth_fresh_block by lia.
    rewrite (nth_indep d1 (wrap_uchar (f2 k)) 0) by lia. subst d1.
    rewrite nth_fresh_block by lia. symmetry. apply nth_indep. assumption.
Qed.

Lemma resize_grow_then_shrink_back_witness :
  fst (bitset_resize
         (fst (bitset_resize (from_bytes [1; 2] 11) 30 (Granted (fun _ => 255))))
         (size (from_bytes [1; 2] 11)) (Granted (fun _ => 255))) =
  from_bytes [1; 2] 11.
Proof.
  apply (resize_grow_then_shrink_back (from_bytes [1; 2] 11) [1; 2] 30
           (fun _ => 255) (fun _ => 255)).
  - wf_bytes.
  - reflexivity.
  - simpl. lia.
  - lia.
Defined.

Lemma malloc_granted_block num clear f1 f2 :
  0 < num <= 2 ^ 64 - 8 ->
  bitset_malloc num clear (Granted f1) (Granted f2) =
  Some (mk_bitset
          (Some (fresh_block [] (ceil8 num)
                   (if clear =? 0 then f2 else fun _ => 0)))
          (8 * ceil8 num) num).
Proof.
  intros H.
  assert (Hc : 0 <= ceil8 num < 2 ^ 64)
    by (unfold ceil8; Z.div_mod_to_equations; lia).
  unfold bitset_malloc, bitset_internal_alloc, c_malloc, c_calloc.
  rewrite internal_capacity_bytes, internal_bytes_ceil by lia.
  rewrite Z.mul_1_r, wrap_size_small by lia.
  destruct (clear =? 0); reflexivity.
Qed.

Lemma wf_fresh num fill :
  0 < num <= 2 ^ 64 - 8 ->
  wf (mk_bitset (Some (fresh_block [] (ceil8 num) fill)) (8 * ceil8 num) num)
     (fresh_block [] (ceil8 num) fill).
Proof.
  intros H.
  assert (Hc : 0 <= ceil8 num /\ 8 * ceil8 num < 2 ^ 64)
    by (unfold ceil8; Z.div_mod_to_equations; lia).
  repeat split; cbn [data capacity]; try lia.
  - apply bytes_ok_fresh_block. constructor.
  - rewrite fresh_block_length; lia.
Qed.

Lemma ceil8_bounds num : num <= 8 * ceil8 num < num + 8.
Proof. unfold ceil8. Z.div_mod_to_equations. lia. Qed.

(** X20.  A bitset from [bitset_calloc (num)], for [num] in
    [1 .. 2^64 - 8] and both allocations granted, has size [num], the
    least capacity that is a multiple of 8 and at least [num], and
    [bitset_get] gives 0 at every index below the capacity. *)
Theorem calloc_all_clear (num : Z) (f1 f2 : nat -> Z) :
  0 < num <= 2 ^ 64 - 8 ->
  exists s,
    bitset_calloc num (Granted f1) (Granted f2) = Some s /\
    size s = num /\ capacity s mod 8 = 0 /\
    num <= capacity s < num + 8 /\
    forall index, 0 <= index < capacity s -> bitset_get s index = Some 0.
Proof.
  intros H. unfold bitset_calloc. rewrite malloc_granted_block by assumption.
  change (1 =? 0) with false. cbn iota.
  eexists. split; [reflexivity|]. cbn [size capacity].
  split; [reflexivity|].
  split; [rewrite Z.mul_comm; apply Z.mod_mul; lia|].
  split; [apply ceil8_bounds|].
  intros index Hi.
  rewrite (get_spec _ _ index (wf_fresh num (fun _ => 0) H)) by assumption.
  rewrite fresh_block_zeros, bit_at_zeros. reflexivity.
Qed.

Lemma calloc_all_clear_witness :
  exists s,
    bitset_calloc 11 (Granted (fun _ => 0)) (Granted (fun _ => 255)) = Some s /\
    size s = 11 /\ capacity s mod 8 = 0 /\
    11 <= capacity s < 11 + 8 /\
    forall index, 0 <= index < capacity s -> bitset_get s index = Some 0.
Proof.
  apply (calloc_all_clear 11 (fun _ => 0) (fun _ => 255)). lia.
Defined.

(** X21.  A bitset from [bitset_alloc (num)], for [num] in
    [1 .. 2^64 - 8] and both allocations granted, can be used at every
    index below [num] whatever the allocator left in the buffer:
    [bitset_set] succeeds there and [bitset_get] then reports the state
    that was set. *)
Theorem alloc_usable_below_size (num : Z) (f1 f2 : nat -> Z) :
  0 < num <= 2 ^ 64 - 8 ->
  exists s,
    bitset_alloc num (Granted f1) (Granted f2) = Some s /\
    size s = num /\ num <= capacity s < num + 8 /\
    forall index state, 0 <= index < num ->
      exists s' r,
        bitset_set s index state = Some s' /\
        bitset_get s' index = Some r /\ (r <> 0 <-> state <> 0).
Proof.
  intros H. unfold bitset_alloc. rewrite malloc_granted_block by assumption.
  change (0 =? 0) with true. cbn iota.
  eexists. split; [reflexivity|]. cbn [size capacity].
  split; [reflexivity|]. split; [apply ceil8_bounds|].
  intros index state Hi.
  pose proof (ceil8_bounds num) as Hb.
  pose proof (wf_fresh num f2 H) as Hwf.
  destruct (set_spec _ _ index state Hwf) as (d' & E & Hwf' & L & _ & B);
    [cbn [capacity]; lia|].
  eexists. eexists. split; [exact E|].
  rewrite (get_spec _ d') by (auto; cbn [capacity set_data]; lia).
  split; [reflexivity|]. rewrite B by lia. rewrite Z.eqb_refl.
  pose proof (pow2_mod8_pos index) as Hp.
  destruct (Z.eqb_spec state 0); simpl; split; intros; lia.
Qed.

Lemma alloc_usable_below_size_witness :
  exists s,
    bitset_alloc 11 (Granted (fun _ => 0)) (Granted (fun _ => 170)) = Some s /\
    size s = 11 /\ 11 <= capacity s < 11 + 8 /\
    forall index state, 0 <= index < 11 ->
      exists s' r,
        bitset_set s index state = Some s' /\
        bitset_get s' index = Some r /\ (r <> 0 <-> state <> 0).
Proof.
  apply (alloc_usable_below_size 11 (fun _ => 0) (fun _ => 170)). lia.
Defined.

(** X22.  Where [bitset_cresize] does its work: growing to a size that is
    not a multiple of 8, when the old and the new size fall in different
    bytes or the old size lies in the first byte, with the reallocation
    granted.  Then [bitset_get] gives 0 at every index from the old size
    to the new one, whatever [realloc] left there, and what it gave before
    at every index below the old size; the value returned is the old size
    minus the new one. *)
Theorem cresize_new_bits_read_zero (s : bitset) (d : list Z) (sz : Z)
    (fill : nat -> Z) :
  wf s d -> 0 <= size s <= capacity s -> size s < sz < 2 ^ 63 ->
  sz mod 8 <> 0 -> size s / 8 <> sz / 8 \/ size s < 8 ->
  exists s',
    bitset_cresize s sz (Granted fill) = Some (s', size s - sz) /\
    size s' = sz /\ capacity s' = 8 * ceil8 sz /\
    (forall i, size s <= i < sz -> bitset_get s' i = Some 0) /\
    (forall i, 0 <= i < size s -> bitset_get s' i = bitset_get s i).
Proof.
  intros Hwf Hsz Hgrow Hmod Hcase. pose proof Hwf as (Hd & Hok & Hcap & Hlt).
  destruct (resize_granted s sz fill) as (d1 & E1 & L1 & F1); [lia|].
  rewrite Hd in F1.
  pose proof (ceil8_bounds sz) as Hc8.
  assert (Hne : sz <> 8 * ceil8 sz)
    by (unfold ceil8; Z.div_mod_to_equations; lia).
  assert (Hwf1 : wf (mk_bitset (Some d1) (8 * ceil8 sz) sz) d1).
  { repeat split; cbn [data capacity]; try lia.
    subst d1. apply bytes_ok_fresh_block. assumption. }
  destruct (rclear_spec _ d1 (size s) sz Hwf1) as (d2 & E2 & Hwf2 & L2 & B2);
    cbn [capacity]; try lia; auto.
  unfold bitset_cresize. rewrite E1.
  destruct (Z.ltb_spec (size s) sz); [|lia].
  cbn [size]. rewrite E2. cbn [bind fst].
  rewrite to_intmax_small by lia.
  eexists. split; [reflexivity|]. cbn [set_data size capacity].
  split; [reflexivity|]. split; [reflexivity|]. split.
  - intros i Hi. rewrite (get_spec _ d2) by (auto; cbn [capacity set_data]; lia).
    rewrite B2 by lia.
    destruct (Z.leb_spec (size s) i), (Z.ltb_spec i sz); cbn [andb];
      try reflexivity; lia.
  - intros i Hi. rewrite (get_spec _ d2) by (auto; cbn [capacity set_data]; lia).
    rewrite (get_spec s d) by (auto; lia).
    rewrite B2 by lia.
    destruct (Z.leb_spec (size s) i), (Z.ltb_spec i sz); cbn [andb]; try lia.
    replace (bit_at d1 i) with (bit_at d i); [reflexivity|].
    unfold bit_at. f_equal. subst d1.
    rewrite nth_fresh_block
      by (rewrite Z2Nat.id; Z.div_mod_to_equations; lia).
    symmetry. apply nth_indep. Z.div_mod_to_equations. lia.
Qed.

Lemma cresize_new_bits_read_zero_witness :
  exists s',
    bitset_cresize (from_bytes [255] 5) 11 (Granted (fun _ => 255)) =
    Some (s', size (from_bytes [255] 5) - 11) /\
    size s' = 11 /\ capacity s' = 8 * ceil8 11 /\
    (forall i, size (from_bytes [255] 5) <= i < 11 ->
               bitset_get s' i = Some 0) /\
    (forall i, 0 <= i < size (from_bytes [255] 5) ->
               bitset_get s' i = bitset_get (from_bytes [255] 5) i).
Proof.
  apply (cresize_new_bits_read_zero (from_bytes [255] 5) [255] 11
           (fun _ => 255)).
  - wf_bytes.
  - simpl. lia.
  - simpl. lia.
  - vm_compute. discriminate.
  - right. simpl. lia.
Defined.

(** X23.  [bitset_new] gives a bitset of size and capacity 0 with no
    buffer, so [bitset_get] on it goes through a null pointer at every
    index; a granted [bitset_resize] to [sz] then gives it a buffer of
    [ceil(sz / 8)] bytes, capacity [8 * ceil(sz / 8)] and size [sz], and
    returns [- sz]. *)
Theorem new_then_resize (sz : Z) (f0 fill : nat -> Z) :
  0 < sz < 2 ^ 63 ->
  exists s0 s' d',
    bitset_new (Granted f0) = Some s0 /\
    size s0 = 0 /\ capacity s0 = 0 /\
    (forall index, bitset_get s0 index = None) /\
    bitset_resize s0 sz (Granted fill) = (s', - sz) /\
    wf s' d' /\ size s' = sz /\ capacity s' = 8 * ceil8 sz /\
    Z.of_nat (length d') = ceil8 sz.
Proof.
  intros H.
  assert (H' : 0 < sz <= 2 ^ 64 - 8) by lia.
  destruct (resize_granted (mk_bitset None 0 0) sz fill H')
    as (d' & E & L & F).
  cbn [data size] in *.
  exists (mk_bitset None 0 0), (mk_bitset (Some d') (8 * ceil8 sz) sz), d'.
  split; [reflexivity|]. split; [reflexivity|]. split; [reflexivity|].
  split; [reflexivity|].
  split; [rewrite E, to_intmax_small by lia; reflexivity|].
  split; [subst d'; apply wf_fresh; assumption|].
  auto.
Qed.

Lemma new_then_resize_witness :
  exists s0 s' d',
    bitset_new (Granted (fun _ => 0)) = Some s0 /\
    size s0 = 0 /\ capacity s0 = 0 /\
    (forall index, bitset_get s0 index = None) /\
    bitset_resize s0 11 (Granted (fun _ => 255)) = (s', - 11) /\
    wf s' d' /\ size s' = 11 /\ capacity s' = 8 * ceil8 11 /\
    Z.of_nat (length d') = ceil8 11.
Proof.
  apply (new_then_resize 11 (fun _ => 0) (fun _ => 255)). lia.
Defined.

(** ** The capacity invariant *)

Lemma internal_bytes_range bits : 0 <= bitset_internal_bytes bits < 2 ^ 64.
Proof. unfold bitset_internal_bytes, wrap_size. apply Z.mod_pos_bound. lia. Qed.

(** A byte count below [2^61] comes from a size in [1 .. 2^64 - 8]. *)
Lemma internal_bytes_small bits :
  0 <= bits < 2 ^ 64 -> bitset_internal_bytes bits < 2 ^ 61 ->
  0 < bits <= 2 ^ 64 - 8.
Proof.
  intros Hb Hs. destruct (Z.eq_dec bits 0) as [->|Hne].
  - rewrite internal_bytes_zero in Hs. lia.
  - rewrite internal_bytes_ceil in Hs by lia. unfold ceil8 in Hs.
    Z.div_mod_to_equations. lia.
Qed.

Lemma sized_by_bytes (d : list Z) sz :
  0 <= sz < 2 ^ 64 ->
  Z.of_nat (length d) = bitset_internal_bytes sz ->
  Z.of_nat (length d) < 2 ^ 61 ->
  bitset_internal_capacity (bitset_internal_bytes sz) = 8 * ceil8 sz /\
  Z.of_nat (length d) = ceil8 sz /\
  bitset_internal_capacity (bitset_internal_bytes sz) mod 8 = 0.
Proof.
  intros Hsz Hlen Hsmall. rewrite Hlen in Hsmall.
  pose proof (internal_bytes_small sz Hsz Hsmall) as Hr.
  rewrite Hlen, internal_capacity_bytes, internal_bytes_ceil by lia.
  repeat split. rewrite Z.mul_comm. apply Z.mod_mul. lia.
Qed.

Lemma resize_sized s0 sz o s diff :
  0 <= sz < 2 ^ 64 ->
  bitset_resize s0 sz o = (s, diff) -> data s <> None ->
  buffer_bytes s < 2 ^ 61 ->
  size s = sz /\
  capacity s = 8 * ceil8 (size s) /\ buffer_bytes s = ceil8 (size s) /\
  capacity s mod 8 = 0.
Proof.
  intros Hsz E Hdata Hsmall. unfold bitset_resize in E.
  destruct o as [|fill]; cbn [c_realloc set_data data] in E.
  - injection E as <- _. cbn [data] in Hdata. contradiction.
  - injection E as <- _. unfold buffer_bytes in *. cbn [data size capacity] in *.
    pose proof (internal_bytes_range sz) as Hb.
    destruct (sized_by_bytes _ sz Hsz
                (fresh_block_length _ _ fill (proj1 Hb)) Hsmall)
      as (Hc & Hl & Hm).
    auto.
Qed.

Lemma rclear_keeps_shape s begin end_ s' r :
  bitset_rclear s begin end_ = Some (s', r) ->
  capacity s' = capacity s /\ size s' = size s /\
  buffer_bytes s' = buffer_bytes s /\ data s' <> None.
Proof.
  unfold bitset_rclear. destruct (data s) as [d|] eqn:Hd; cbn [bind];
    [|discriminate].
  match goal with
  | |- bind ?m _ = _ -> _ => destruct m as [d'|] eqn:E
  end; cbn [bind]; [|discriminate].
  intros H. injection H as <- _.
  assert (L : length d' = length d).
  { destruct (bitset_byte_at begin =? bitset_byte_at end_).
    - destruct (load d (bitset_byte_at begin)); cbn [bind] in E; [|discriminate].
      destruct (c_shl_checked _ _); cbn [bind] in E; [|discriminate].
      destruct (c_shl_checked _ _); cbn [bind] in E; [|discriminate].
      eapply store_length; eassumption.
    - match type of E with
      | bind ?m _ = _ => destruct m as [d1|] eqn:E1
      end; cbn [bind] in E; [|discriminate].
      assert (L1 : length d1 = length d).
      { destruct (_ =? 0) in E1; [injection E1 as <-; reflexivity|].
        unfold memset in E1. eapply memset_from_length; eassumption. }
      match type of E with
      | bind ?m _ = _ => destruct m as [d2|] eqn:E2
      end; cbn [bind] in E; [|discriminate].
      assert (L2 : length d2 = length d1).
      { destruct (_ =? 0) in E2; [injection E2 as <-; reflexivity|].
        destruct (load d1 _); cbn [bind] in E2; [|discriminate].
        eapply store_length; eassumption. }
      destruct (load d2 _); cbn [bind] in E; [|discriminate].
      apply store_length in E. congruence. }
  unfold buffer_bytes. cbn [set_data data capacity size]. rewrite Hd, L.
  repeat split. discriminate.
Qed.

(** C9.  For every bitset that [bitset_new], [bitset_malloc], a successful
    [bitset_resize] or a successful [bitset_cresize] has just returned,
    with a buffer of fewer than [2^61] bytes (no allocator grants that
    many): the capacity is [8 * ceil(size / 8)], the buffer holds exactly
    [ceil(size / 8)] bytes, and the capacity is a multiple of 8. *)
Theorem capacity_invariant (s : bitset) :
  just_made s -> buffer_bytes s < 2 ^ 61 ->
  capacity s = 8 * ceil8 (size s) /\
  buffer_bytes s = ceil8 (size s) /\
  capacity s mod 8 = 0.
Proof.
  intros Hmade Hsmall.
  destruct Hmade as [o s E | num clear o1 o2 s Hnum E
                    | s0 sz o s diff Hsz E Hdata
                    | s0 sz o s diff Hsz E Hdata].
  - destruct o; [discriminate|]. injection E as <-.
    repeat split.
  - unfold bitset_malloc in E. destruct o1; [discriminate|].
    destruct (bitset_internal_alloc _ _ _ _) as [d|] eqn:Ea; [|discriminate].
    injection E as <-. unfold buffer_bytes in *.
    cbn [data size capacity] in *.
    pose proof (internal_bytes_range num) as Hb.
    assert (Hlen : Z.of_nat (length d) = bitset_internal_bytes num).
    { unfold bitset_internal_alloc, c_malloc, c_calloc in Ea.
      rewrite Z.mul_1_r in Ea. rewrite wrap_size_small in Ea by assumption.
      destruct (clear =? 0), o2; try discriminate;
        injection Ea as <-; apply fresh_block_length; lia. }
    apply sized_by_bytes; assumption.
  - destruct (resize_sized s0 sz o s diff) as (_ & H); assumption.
  - unfold bitset_cresize in E.
    destruct (bitset_resize s0 sz o) as [s1 d1] eqn:E1.
    destruct (size s0 <? sz).
    + destruct (bitset_rclear s1 (size s0) (size s1)) as [[s2 r]|] eqn:E2;
        cbn [bind fst] in E; [|discriminate].
      injection E as <- _.
      destruct (rclear_keeps_shape _ _ _ _ _ E2) as (Hc & Hz & Hbb & _).
      assert (Hd1 : data s1 <> None).
      { unfold bitset_rclear in E2. destruct (data s1); [discriminate|].
        discriminate. }
      rewrite Hc, Hz, Hbb in *.
      destruct (resize_sized s0 sz o s1 d1) as (_ & H); assumption.
    + injection E as <- _.
      destruct (resize_sized s0 sz o s1 d1) as (_ & H); assumption.
Qed.

Lemma capacity_invariant_witness :
  capacity (fst (bitset_resize (from_bytes [1; 2] 16) 30
                   (Granted (fun _ => 255)))) =
  8 * ceil8 (size (fst (bitset_resize (from_bytes [1; 2] 16) 30
                          (Granted (fun _ => 255))))) /\
  buffer_bytes (fst (bitset_resize (from_bytes [1; 2] 16) 30
                       (Granted (fun _ => 255)))) =
  ceil8 (size (fst (bitset_resize (from_bytes [1; 2] 16) 30
                      (Granted (fun _ => 255))))) /\
  capacity (fst (bitset_resize (from_bytes [1; 2] 16) 30
                   (Granted (fun _ => 255)))) mod 8 = 0.
Proof.
  apply (capacity_invariant
           (fst (bitset_resize (from_bytes [1; 2] 16) 30
                   (Granted (fun _ => 255))))).
  - apply (made_resize (from_bytes [1; 2] 16) 30 (Granted (fun _ => 255))
             _ (snd (bitset_resize (from_bytes [1; 2] 16) 30
                       (Granted (fun _ => 255))))).
    + lia.
    + reflexivity.
    + vm_compute. discriminate.
  - vm_compute. reflexivity.
Defined.
